(** * The card authentication protocol (TypeScript module [protocol]), embedded in Rocq

    The development follows the source file function by function:
    - module [Js]: the JavaScript values and built-ins the code relies on
      (numbers with [NaN], the 32-bit operators, [slice], [split], [join],
      [Number.parseInt], [toString], [Buffer.compare], [Buffer.from]);
    - class [Compat]: the primitives imported from [./compat] and [bech32],
      which the protocol code treats as opaque;
    - class [Constants]: the values imported from [./constants];
    - section [Protocol]: the functions of the TypeScript module, in source
      order, each under the name it has there;
    - module [Legacy]: the trim-window test of the older JavaScript port;
    - module [Utils]: [randomStringGenerator] of [utils.js];
    - module [Fixture]: stand-ins for the collaborators and sample responses,
      to run the functions on concrete inputs;
    - then the properties of each function.

    [tou8] and [Buffer.from(buffer)] copy bytes without changing them and
    are left out: a [Buffer] and a [Uint8Array] are both lists of bytes here. *)

From Stdlib Require Import Ascii String ZArith List Bool Lia.
Import ListNotations.

Local Open Scope Z_scope.

(** ** Exceptions and results *)

(** The code signals every failure with [throw new Error(msg)]; built-ins
    raise [TypeError] when a value is [undefined]. The text of a [TypeError]
    is the one Node gives, except for [Buffer.compare], whose text has
    quotation marks and is described instead. *)
Inductive exn : Type :=
| Error (msg : string)
| TypeError (msg : string).

Inductive result (A : Type) : Type :=
| Ok (a : A)
| Throw (e : exn).
Arguments Ok {A} a.
Arguments Throw {A} e.

Definition bind {A B : Type} (r : result A) (k : A -> result B) : result B :=
  match r with
  | Ok a => k a
  | Throw e => Throw e
  end.

Notation "'let!' x ':=' r 'in' k" := (bind r (fun x => k))
  (at level 10, x pattern, r at level 100, k at level 200).

(** [if (c) throw new Error(msg);] followed by the rest of the body. *)
Definition throw_if {A : Type} (c : bool) (msg : string) (k : result A) : result A :=
  if c then Throw (Error msg) else k.

(** ** JavaScript values *)

Module Js.

(** A JavaScript string, as its sequence of characters. Characters up to
    code 255 are enough for paths, addresses, versions and hexadecimal keys. *)
Definition jsstring : Type := list ascii.

Definition str (s : string) : jsstring := list_ascii_of_string s.

(** A [Buffer]: its bytes, each in [0, 256). *)
Definition Buffer : Type := list Z.

Definition code (c : ascii) : Z := Z.of_N (N_of_ascii c).

(** [Buffer.from(s)] for a string of ASCII characters. *)
Definition Buffer_from_ascii (s : jsstring) : Buffer := map code s.

(** The numbers the path codec handles: integers, and [NaN] as produced by
    [Number.parseInt] on a string with no digits. *)
Inductive jsnum : Type :=
| NaN
| Num (z : Z).

Definition ToInt32 (n : jsnum) : Z :=
  match n with
  | NaN => 0
  | Num z => (z + 2 ^ 31) mod 2 ^ 32 - 2 ^ 31
  end.

(** [a & b], [a | b] and [~a] work on 32-bit signed integers; [a >>> 0]
    reads the 32 bits back as an unsigned integer. *)
Definition band (a b : jsnum) : jsnum := Num (Z.land (ToInt32 a) (ToInt32 b)).
Definition bor (a b : jsnum) : jsnum := Num (Z.lor (ToInt32 a) (ToInt32 b)).
Definition bnot (a : jsnum) : jsnum := Num (Z.lnot (ToInt32 a)).
Definition ushr0 (a : jsnum) : jsnum := Num (ToInt32 a mod 2 ^ 32).

(** Truthiness of a number: [0] and [NaN] are falsy. *)
Definition truthy_num (n : jsnum) : bool :=
  match n with
  | NaN => false
  | Num z => negb (z =? 0)
  end.

(** [a <= b] and [a < b] on numbers: any comparison with [NaN] is [false]. *)
Definition num_le (a b : jsnum) : bool :=
  match a, b with
  | Num x, Num y => x <=? y
  | _, _ => false
  end.

Definition num_lt (a b : jsnum) : bool :=
  match a, b with
  | Num x, Num y => x <? y
  | _, _ => false
  end.

(** A boolean used as an operand of [<] is converted to [1] or [0]. *)
Definition bool_to_num (b : bool) : jsnum := Num (if b then 1 else 0).

(** *** Strings *)

Definition ascii_eqb (a b : ascii) : bool := (code a =? code b).

Fixpoint str_eqb (a b : jsstring) : bool :=
  match a, b with
  | [], [] => true
  | x :: a', y :: b' => ascii_eqb x y && str_eqb a' b'
  | _, _ => false
  end.

Definition len {A : Type} (l : list A) : Z := Z.of_nat (length l).

(** Clamping of a relative index, as [slice] does for strings and buffers. *)
Definition clamp (n i : Z) : Z :=
  if i <? 0 then Z.max (n + i) 0 else Z.min i n.

(** [s.slice(from, to)] *)
Definition slice {A : Type} (s : list A) (from to : Z) : list A :=
  let f := clamp (len s) from in
  let t := clamp (len s) to in
  firstn (Z.to_nat (t - f)) (skipn (Z.to_nat f) s).

(** [s.slice(from)] *)
Definition slice_from {A : Type} (s : list A) (from : Z) : list A :=
  skipn (Z.to_nat (clamp (len s) from)) s.

(** [s.indexOf(c)] for a one-character [c]: [-1] when absent. *)
Fixpoint indexOf (c : ascii) (s : jsstring) : Z :=
  match s with
  | [] => -1
  | x :: r =>
      if ascii_eqb x c then 0
      else let i := indexOf c r in if i <? 0 then -1 else 1 + i
  end.

(** [s.lastIndexOf(c)] *)
Fixpoint lastIndexOf (c : ascii) (s : jsstring) : Z :=
  match s with
  | [] => -1
  | x :: r =>
      let i := lastIndexOf c r in
      if 0 <=? i then 1 + i
      else if ascii_eqb x c then 0 else -1
  end.

(** [s.startsWith(p)] *)
Fixpoint startsWith (s p : jsstring) : bool :=
  match p, s with
  | [], _ => true
  | x :: p', y :: s' => ascii_eqb x y && startsWith s' p'
  | _ :: _, [] => false
  end.

(** [s.endsWith(p)] *)
Definition endsWith (s p : jsstring) : bool :=
  startsWith (rev s) (rev p).

(** [s.includes(c)] where [c] is [undefined] or one character. The string
    ["undefined"] is searched for in the first case; none of the strings the
    code searches contains it. *)
Definition includes (s : jsstring) (c : option ascii) : bool :=
  match c with
  | None => false
  | Some x => existsb (ascii_eqb x) s
  end.

(** [s[i]] *)
Definition char_at (s : jsstring) (i : Z) : option ascii :=
  if i <? 0 then None else nth_error s (Z.to_nat i).

(** [s.split(sep)] for a one-character separator. *)
Fixpoint split (sep : ascii) (s : jsstring) : list jsstring :=
  match s with
  | [] => [[]]
  | c :: r =>
      if ascii_eqb c sep then [] :: split sep r
      else match split sep r with
           | h :: t => (c :: h) :: t
           | [] => [[c]]
           end
  end.

(** [parts.join(sep)] *)
Fixpoint join (sep : ascii) (parts : list jsstring) : jsstring :=
  match parts with
  | [] => []
  | [p] => p
  | p :: rest => p ++ sep :: join sep rest
  end.

(** *** [Number.parseInt] and [Number.prototype.toString] *)

Definition is_space (c : ascii) : bool :=
  let k := code c in
  (k =? 32) || ((9 <=? k) && (k <=? 13)) || (k =? 160).

(** Value of a character as a digit in the given radix. *)
Definition digit_val (radix : Z) (c : ascii) : option Z :=
  let k := code c in
  let v :=
    if (48 <=? k) && (k <=? 57) then k - 48
    else if (97 <=? k) && (k <=? 122) then k - 97 + 10
    else if (65 <=? k) && (k <=? 90) then k - 65 + 10
    else 99 in
  if v <? radix then Some v else None.

Fixpoint skip_spaces (s : jsstring) : jsstring :=
  match s with
  | c :: r => if is_space c then skip_spaces r else s
  | [] => []
  end.

(** Reads digits until the first character that is not one. *)
Fixpoint parse_digits (radix : Z) (s : jsstring) (acc : Z) : Z :=
  match s with
  | [] => acc
  | c :: r =>
      match digit_val radix c with
      | Some d => parse_digits radix r (acc * radix + d)
      | None => acc
      end
  end.

Definition starts_with_digit (radix : Z) (s : jsstring) : bool :=
  match s with
  | c :: _ => match digit_val radix c with Some _ => true | None => false end
  | [] => false
  end.

(** [Number.parseInt(s)] with no radix argument: leading white space (the
    no-break space included), an optional sign, an optional [0x] prefix
    selecting radix 16, then the longest run of digits; [NaN] when that run is
    empty. The result is exact below 2^53, which covers every 32-bit
    component. *)
Definition parseInt (s : jsstring) : jsnum :=
  let s1 := skip_spaces s in
  let '(sign, s2) :=
    match s1 with
    | c :: r =>
        if code c =? 45 then (-1, r)
        else if code c =? 43 then (1, r)
        else (1, s1)
    | [] => (1, s1)
    end in
  let '(radix, s3) :=
    match s2 with
    | c0 :: cx :: r =>
        if (code c0 =? 48) && ((code cx =? 120) || (code cx =? 88))
        then (16, r) else (10, s2)
    | _ => (10, s2)
    end in
  if starts_with_digit radix s3
  then Num (sign * parse_digits radix s3 0)
  else NaN.

Definition digit_char (d : Z) : ascii := ascii_of_N (Z.to_N (48 + d)).

(** Decimal digits of a non-negative integer, most significant first, put in
    front of [acc]. Each step divides by ten, so [fuel] steps handle every
    [n < 2 ^ fuel]. *)
Fixpoint digits_aux (fuel : nat) (n : Z) (acc : jsstring) : jsstring :=
  match fuel with
  | O => acc
  | S f =>
      let acc' := digit_char (n mod 10) :: acc in
      if n / 10 =? 0 then acc' else digits_aux f (n / 10) acc'
  end.

(** [n.toString()] for an integer [n]. *)
Definition toString (n : Z) : jsstring :=
  if n <? 0
  then "-"%char :: digits_aux (S (Z.to_nat (Z.log2 (- n)))) (- n) []
  else digits_aux (S (Z.to_nat (Z.log2 n))) n [].

(** *** Buffers *)

(** [Buffer.compare(a, b)]: [-1], [0] or [1] by lexicographic byte order. *)
Fixpoint Buffer_compare (a b : Buffer) : Z :=
  match a, b with
  | [], [] => 0
  | [], _ :: _ => -1
  | _ :: _, [] => 1
  | x :: a', y :: b' =>
      if x <? y then -1
      else if y <? x then 1
      else Buffer_compare a' b'
  end.

(** [buf[i]]: [undefined] when [i] is not an index of the buffer, which
    includes every negative [i]. *)
Definition Buffer_get (b : Buffer) (i : Z) : option Z :=
  if i <? 0 then None else nth_error b (Z.to_nat i).

(** [x != y] between values that are a number or [undefined]. *)
Definition loose_neq (x y : option Z) : bool :=
  match x, y with
  | Some a, Some b => negb (a =? b)
  | None, None => false
  | _, _ => true
  end.

(** [new Set(buf).size]: the number of distinct bytes. *)
Fixpoint distinct (b : Buffer) : list Z :=
  match b with
  | [] => []
  | x :: r => if existsb (Z.eqb x) r then distinct r else x :: distinct r
  end.

Definition Set_size (b : Buffer) : Z := len (distinct b).

(** [Buffer.from(s, 'hex')]: one byte per pair of hexadecimal digits; decoding
    stops at the first pair that is not hexadecimal. *)
Fixpoint hex_decode_aux (fuel : nat) (s : jsstring) : Buffer :=
  match fuel, s with
  | S f, a :: b :: r =>
      match digit_val 16 a, digit_val 16 b with
      | Some x, Some y => (16 * x + y) :: hex_decode_aux f r
      | _, _ => []
      end
  | _, _ => []
  end.

Definition Buffer_from_hex (s : jsstring) : Buffer :=
  hex_decode_aux (length s) s.

End Js.
Import Js.

(** [Buffer.from(s)]: the UTF-8 bytes of a string. Characters below 128 are one
    byte; the others representable in [ascii] take two. *)
Definition Buffer_from_string (s : jsstring) : Buffer :=
  flat_map (fun c =>
    let k := code c in
    if k <? 128 then [k] else [192 + k / 64; 128 + k mod 64]) s.

(** [Buffer.from(buffer-xor(a, b))] on buffers of one length. *)
Fixpoint xor (a b : Buffer) : Buffer :=
  match a, b with
  | x :: a', y :: b' => Z.lxor x y :: xor a' b'
  | _, _ => []
  end.

(** ** The collaborators *)

(** The primitives the module imports from [./compat], and the two [bech32]
    functions it calls. They are opaque to the protocol code.
    [CT_sig_verify] takes the signature, the message digest and the public
    key, in the order of its calls in [verify_certs_ll], [recover_address] and
    [verify_master_pubkey]. [CT_sig_to_pubkey] is the one the code guards with
    [try]: it may throw. *)
Class Compat : Type := {
  sha256s : Buffer -> Buffer;
  hash160 : Buffer -> Buffer;
  base32Encode : Buffer -> jsstring;
  CT_sig_verify : forall (sig msg_digest pub : Buffer), bool;
  CT_sig_to_pubkey : forall (msg_digest rec_sig : Buffer), result Buffer;
  CT_ecdh : forall (his_pubkey my_privkey : Buffer), Buffer;
  CT_priv_to_pubkey : Buffer -> Buffer;
  bech32_toWords : Buffer -> list Z;
  bech32_encode : jsstring -> list Z -> jsstring
}.

(** The values imported from [./constants]. The code reads
    [FACTORY_ROOT_KEYS] by position and compares its entries as buffers: a
    list of keys. *)
Class Constants : Type := {
  ADDR_TRIM : Z;
  CARD_NONCE_SIZE : Z;
  USER_NONCE_SIZE : Z;
  FACTORY_ROOT_KEYS : list Buffer
}.

(** What the protocol relies on from the hash and the encoder: digests and
    session keys are 32 bytes, and a base32 character carries five bits. *)
Class CompatLaws (compat : Compat) : Prop := {
  sha256s_length : forall m, len (sha256s m) = 32;
  CT_ecdh_length : forall pub priv, len (CT_ecdh pub priv) = 32;
  base32Encode_length : forall b, 8 * len b <= 5 * len (base32Encode b)
}.

(** [CT_bip32_derive] of [./compat]: the key at a path under a chain code
    and a master key. *)
Class Derivation : Type := {
  CT_bip32_derive : forall (chain_code master : Buffer) (path : list jsnum), Buffer
}.

(** ** The responses of the card *)

Record status_resp : Type := {
  st_ver : jsstring;
  st_card_nonce : Buffer;
  st_pubkey : Buffer;
  st_is_tapsigner : bool;
  st_slots : list Z;
  st_addr : jsstring
}.

Record check_resp : Type := { auth_sig : Buffer }.
Record certs_resp : Type := { cert_chain : list Buffer }.
Record read_resp : Type := { rd_pubkey : Buffer; rd_sig : Buffer }.

(** An argument typed [string | Buffer]. *)
Inductive str_or_buf : Type :=
| OfStr (s : jsstring)
| OfBuf (b : Buffer).

Definition arg_length (a : str_or_buf) : Z :=
  match a with
  | OfStr s => len s
  | OfBuf b => len b
  end.

Record recovered : Type := { r_pubkey : Buffer; r_addr : jsstring }.
Record ag_t : Type := { epubkey : Buffer; xcvc : Buffer }.
Record xcvc_t : Type := { sk : Buffer; ag : ag_t }.
Record keypair : Type := { priv : Buffer; pub : Buffer }.
Record derived : Type := { derived_addr : jsstring; d_pubkey : Buffer }.

(** The names the specification gives to the failures of the code. *)
Definition ChainTooShortError : exn := Error "Missing certs".
Definition BadAuthSignatureError : exn :=
  Error "bad sig in when verifying certificates".
Definition CounterfeitDeviceError : exn :=
  Error "Root cert is not from Coinkite. Card is counterfeit.".
Definition CorruptResponse : exn := Error "Corrupt response".
Definition ProofOfPossessionError : exn := Error "Bad sig in recover_pubkey".
Definition SignatureRecoveryError : exn :=
  Error "sig may not be created by that address/pubkey??".
Definition MalformedPathError (item : jsstring) : exn :=
  Error ("Malformed bip32 path component: " ++ string_of_list_ascii item).
Definition PathRangeError_hardened (item : jsstring) : exn :=
  Error ("Hardened path component out of range: " ++ string_of_list_ascii item).
Definition PathRangeError_plain (item : jsstring) : exn :=
  Error ("Non-hardened path component out of range: " ++ string_of_list_ascii item).

Definition OPENDIME : Buffer := Buffer_from_string (str "OPENDIME").

(** ** The protocol module *)

Section Protocol.

Context {compat : Compat} {constants : Constants}.

Definition xor_bytes (a b : Buffer) : result Buffer :=
  throw_if (negb (len a =? len b))
    "Length mismatch: Expected same lengths at xor_bytes"
    (Ok (xor a b)).

(** [pick_nonce]. [draws i] is the buffer that call number [i] of
    [randomBytes(USER_NONCE_SIZE)] returns. Falling out of the loop returns
    [undefined], here [None]. *)
Fixpoint pick_nonce_loop (draws : nat -> Buffer) (retries i : nat) : option Buffer :=
  match retries with
  | O => None
  | S retries' =>
      let rv := draws i in
      if loose_neq (Buffer_get rv 0) (Buffer_get rv (-1)) || (2 <=? Set_size rv)
      then Some rv
      else pick_nonce_loop draws retries' (S i)
  end.

Definition pick_nonce (draws : nat -> Buffer) : option Buffer :=
  let num_of_retry := 3%nat in
  pick_nonce_loop draws num_of_retry 0%nat.

Definition HARDENED : jsnum := Num 2147483648.

(** [0 <= num < HARDENED] compares the boolean [0 <= num] with [HARDENED]. *)
Definition path_component_in_range (num : jsnum) : bool :=
  if num_lt (bool_to_num (num_le (Num 0) num)) HARDENED then true else false.

Definition num_toString (n : jsnum) : jsstring :=
  match n with
  | NaN => str "NaN"
  | Num z => toString z
  end.

Definition path2str (path : list jsnum) : jsstring :=
  let temp :=
    map (fun item =>
           num_toString (band item (bnot HARDENED))
           ++ (if truthy_num (band item HARDENED) then str "h" else []))
        path in
  join "/" (str "m" :: temp).

(** A path as [path2str] expects it: every item is an index below 2^31, with
    or without the hardened flag 2^31 added. *)
Definition well_formed_path (path : list jsnum) : Prop :=
  Forall (fun item => exists z, item = Num z /\ 0 <= z < 2 ^ 32) path.

(** The text [path2str] writes for the item [z] of a well-formed path. *)
Definition component_text (z : Z) : jsstring :=
  toString (z mod 2 ^ 31) ++ (if 2 ^ 31 <=? z then str "h" else []).

(** A decimal digit character. *)
Definition is_decimal (c : ascii) : Prop := 48 <= code c <= 57.

Fixpoint str2path_loop (splitArr : list jsstring) (rv : list jsnum)
  : result (list jsnum) :=
  match splitArr with
  | [] => Ok rv
  | item :: rest =>
      if str_eqb item (str "m") then str2path_loop rest rv
      else if (len item =? 0) then str2path_loop rest rv
      else if includes (str "'phHP") (char_at item (len item - 1)) then
        if len item <? 2 then Throw (MalformedPathError item)
        else
          let num := parseInt (slice item 0 (-1)) in
          if negb (path_component_in_range num)
          then Throw (PathRangeError_hardened item)
          else str2path_loop rest (rv ++ [ushr0 (bor num HARDENED)])
      else
        let here := parseInt item in
        if negb (path_component_in_range here)
        then Throw (PathRangeError_plain item)
        else str2path_loop rest (rv ++ [here])
  end.

Definition str2path (path : jsstring) : result (list jsnum) :=
  str2path_loop (split "/" path) [].

(** [itr.every(item => !!item)] and [itr.some(item => !!item)]. Both are
    called on arrays of booleans only, on which [!!] changes nothing. *)
Definition all (itr : list bool) : bool := forallb (fun item => item) itr.

Definition any (itr : list bool) : bool := existsb (fun item => item) itr.

Definition all_hardened (path : list jsnum) : bool :=
  all (map (fun item => truthy_num (band item HARDENED)) path).

Definition none_hardened (path : list jsnum) : bool :=
  negb (any (map (fun item => truthy_num (band item HARDENED)) path)).

Definition card_pubkey_to_ident (card_pubkey : Buffer) : result jsstring :=
  throw_if (negb (len card_pubkey =? 33)) "expecting compressed pubkey"
    (let md := base32Encode (slice_from (sha256s card_pubkey) 8) in
     let v :=
       fold_left (fun v i => v ++ slice md i (i + 5) ++ str "-")
                 [0; 5; 10; 15] [] in
     Ok (slice v 0 (-1))).

(** The loop of [verify_certs_ll] that follows the chain to its root. *)
Fixpoint follow_chain (cert_chain : list Buffer) (pubkey : Buffer) : result Buffer :=
  match cert_chain with
  | [] => Ok pubkey
  | signature :: rest =>
      let! pubkey' := CT_sig_to_pubkey (sha256s pubkey) signature in
      follow_chain rest pubkey'
  end.

(** [slot_pubkey ? Buffer.from(slot_pubkey, 'hex') : slot_pubkey]: [null] and
    the empty string are falsy and stay so; a buffer is copied. *)
Definition slot_bytes (slot_pubkey : option str_or_buf) : option Buffer :=
  match slot_pubkey with
  | None => None
  | Some (OfStr []) => None
  | Some (OfStr s) => Some (Buffer_from_hex s)
  | Some (OfBuf b) => Some b
  end.

(** The message whose signature [verify_certs_ll] checks. *)
Definition certs_msg (card_nonce my_nonce : Buffer) (slot : option Buffer) : Buffer :=
  match slot with
  | None => OPENDIME ++ card_nonce ++ my_nonce
  | Some s => (OPENDIME ++ card_nonce ++ my_nonce) ++ s
  end.

Definition verify_certs_ll (card_nonce card_pubkey my_nonce : Buffer)
    (cert_chain : list Buffer) (signature : Buffer)
    (slot_pubkey : option str_or_buf) : result Buffer :=
  throw_if (len cert_chain <? 2) "Missing certs"
  (let msg := OPENDIME ++ card_nonce ++ my_nonce in
   throw_if (negb (len msg =? 8 + CARD_NONCE_SIZE + USER_NONCE_SIZE))
     "Invalid message length"
   (let slot := slot_bytes slot_pubkey in
    throw_if (match slot with
              | Some s => negb (len s =? 33)
              | None => false
              end) "Invalid slot pubkey length"
    (let msg := certs_msg card_nonce my_nonce slot in
     let ok := CT_sig_verify signature (sha256s msg) card_pubkey in
     throw_if (negb ok) "bad sig in when verifying certificates"
     (let! pubkey := follow_chain cert_chain card_pubkey in
      match FACTORY_ROOT_KEYS with
      | [] => Throw (TypeError "Buffer.compare: buf2 is undefined")
      | root0 :: _ =>
          if negb (Buffer_compare pubkey root0 =? 0)
          then Throw CounterfeitDeviceError
          else Ok pubkey
      end)))).

(** The checks of [verify_certs_ll] that precede the walk of the chain: the
    message has the framed length, a sealed-slot key has 33 bytes, and the
    authentication signature verifies. *)
Definition auth_checks_pass (card_nonce card_pubkey my_nonce signature : Buffer)
    (slot_pubkey : option str_or_buf) : Prop :=
  len card_nonce + len my_nonce = CARD_NONCE_SIZE + USER_NONCE_SIZE
  /\ (forall s, slot_bytes slot_pubkey = Some s -> len s = 33)
  /\ CT_sig_verify signature
       (sha256s (certs_msg card_nonce my_nonce (slot_bytes slot_pubkey)))
       card_pubkey = true.

Definition verify_certs (status : status_resp) (check : check_resp)
    (certs : certs_resp) (my_nonce : Buffer)
    (slot_pubkey : option str_or_buf) : result Buffer :=
  let slot_pubkey :=
    if str_eqb (st_ver status) (str "0.9.0") then None else slot_pubkey in
  verify_certs_ll (st_card_nonce status) (st_pubkey status) my_nonce
    (cert_chain certs) (auth_sig check) slot_pubkey.

Definition recover_pubkey (status : status_resp) (read : read_resp)
    (my_nonce ses_key : Buffer) : result Buffer :=
  throw_if (negb (st_is_tapsigner status)) "Card is not a Tapsigner"
  (let msg := OPENDIME ++ st_card_nonce status ++ my_nonce ++ [0] in
   throw_if (negb (len msg =? 8 + CARD_NONCE_SIZE + USER_NONCE_SIZE + 1))
     "Invalid message length"
   (let pubkey := rd_pubkey read in
    let! unmasked := xor_bytes (slice_from pubkey 1) ses_key in
    let pubkey := slice pubkey 0 1 ++ unmasked in
    let ok := CT_sig_verify pubkey (sha256s msg) (rd_sig read) in
    throw_if (negb ok) "Bad sig in recover_pubkey" (Ok pubkey))).

Definition render_address (pubkey : Buffer) (testnet : bool) : jsstring :=
  let pubkey := if len pubkey =? 32 then CT_priv_to_pubkey pubkey else pubkey in
  let HRP := if negb testnet then str "bc" else str "tb" in
  let words := bech32_toWords (hash160 pubkey) in
  bech32_encode HRP (0 :: words).

(** The two ends of the expected address that [recover_address] compares. *)
Definition expect_left (expect : jsstring) : jsstring :=
  slice expect 0 (indexOf "_" expect).

Definition expect_right (expect : jsstring) : jsstring :=
  slice_from expect (lastIndexOf "_" expect + 1).

(** The same two ends in the words of the specification: the text before the
    first separator and the text after the last one. A string with no
    separator is its own prefix and suffix. *)
Fixpoint before_first (sep : ascii) (s : jsstring) : jsstring :=
  match s with
  | [] => []
  | x :: r => if ascii_eqb x sep then [] else x :: before_first sep r
  end.

Fixpoint after_last (sep : ascii) (s : jsstring) : jsstring :=
  match s with
  | [] => []
  | x :: r =>
      if existsb (fun y => ascii_eqb y sep) r then after_last sep r
      else if ascii_eqb x sep then r else x :: r
  end.

(** The anti-counterfeiting condition on the rendered address [addr]. *)
Definition trim_window_matches (expect addr : jsstring) : Prop :=
  startsWith addr (before_first "_" expect) = true
  /\ endsWith addr (after_last "_" expect) = true
  /\ len (before_first "_" expect) = ADDR_TRIM
  /\ len (after_last "_" expect) = ADDR_TRIM.

(** The test the code makes on its two ends of the expected address. *)
Definition trim_test (expect addr : jsstring) : bool :=
  startsWith addr (expect_left expect)
  && endsWith addr (expect_right expect)
  && (len (expect_left expect) =? len (expect_right expect))
  && (len (expect_left expect) =? ADDR_TRIM).

Definition recover_address (status : status_resp) (read : read_resp)
    (my_nonce : Buffer) : result recovered :=
  throw_if (st_is_tapsigner status) "recover_address: tapsigner not supported"
  (let sl := nth 0 (st_slots status) 0 in
   let msg := OPENDIME ++ st_card_nonce status ++ my_nonce ++ [sl mod 256] in
   throw_if (negb (len msg =? 8 + CARD_NONCE_SIZE + USER_NONCE_SIZE + 1))
     "recover_address: invalid message length"
   (let pubkey := rd_pubkey read in
    let ok := CT_sig_verify (rd_sig read) (sha256s msg) pubkey in
    throw_if (negb ok) "Bad sig in recover_address"
    (let expect := st_addr status in
     let left := expect_left expect in
     let right := expect_right expect in
     let addr := render_address pubkey false in
     throw_if (negb (startsWith addr left
                     && endsWith addr right
                     && (len left =? len right)
                     && (len left =? ADDR_TRIM)))
       "Corrupt response"
       (Ok {| r_pubkey := pubkey; r_addr := addr |})))).

Definition force_bytes (foo : str_or_buf) : Buffer :=
  match foo with
  | OfStr s => Buffer_from_string s
  | OfBuf b => b
  end.

Definition verify_master_pubkey (pub sig chain_code my_nonce card_nonce : Buffer)
  : result Buffer :=
  let msg := OPENDIME ++ card_nonce ++ my_nonce ++ chain_code in
  throw_if (negb (len msg =? 8 + CARD_NONCE_SIZE + USER_NONCE_SIZE + 32))
    "verify_master_pubkey: invalid message length"
  (let ok := CT_sig_verify sig (sha256s msg) pub in
   throw_if (negb ok) "verify_master_pubkey: bad sig in verify_master_pubkey"
     (Ok pub)).

(** One pass of the loop of [make_recoverable_sig], for the candidates [ids]
    still to try. [pubkey] is [None] when the [catch] block has swallowed a
    failure of [CT_sig_to_pubkey] and left the variable [undefined]. *)
Fixpoint recover_loop (digest sig : Buffer) (addr : option jsstring)
    (expect_pubkey : option Buffer) (is_testnet : bool) (ids : list Z)
  : result Buffer :=
  match ids with
  | [] => Throw SignatureRecoveryError
  | rec_id :: rest =>
      let continue := recover_loop digest sig addr expect_pubkey is_testnet rest in
      let rec_sig := (39 + rec_id) :: sig in
      let after_try (pubkey : option Buffer) : result Buffer :=
        let check_addr (_ : unit) : result Buffer :=
          match addr with
          | Some (c :: a) =>
              match pubkey with
              | None => Throw (TypeError "Cannot read properties of undefined (reading 'length')")
              | Some pk =>
                  let got := render_address pk is_testnet in
                  if endsWith got (c :: a) then Ok rec_sig else continue
              end
          | _ => Ok rec_sig
          end in
        match expect_pubkey with
        | Some expected =>
            match pubkey with
            | None => Throw (TypeError "The first argument must be of type string or an instance of Buffer, ArrayBuffer, or Array or an Array-like Object. Received undefined")
            | Some pk =>
                if negb (Buffer_compare expected pk =? 0) then continue
                else check_addr tt
            end
        | None => check_addr tt
        end in
      match CT_sig_to_pubkey digest rec_sig with
      | Ok pk => after_try (Some pk)
      | Throw e => if 2 <=? rec_id then continue else after_try None
      end
  end.

Definition make_recoverable_sig (digest sig : Buffer) (addr : option jsstring)
    (expect_pubkey : option Buffer) (is_testnet : bool) : result Buffer :=
  throw_if (negb (len digest =? 32)) "Invalid digest length"
  (throw_if (negb (len sig =? 64)) "Invalid sig length"
     (recover_loop digest sig addr expect_pubkey is_testnet [0; 1; 2; 3])).

(** [calc_xcvc]. [kp] is the key pair that this call's [CT_pick_keypair()]
    returns. *)
Definition calc_xcvc (kp : keypair) (cmd : jsstring)
    (card_nonce his_pubkey : Buffer) (cvc : str_or_buf) : result xcvc_t :=
  throw_if ((arg_length cvc <? 6) || (32 <? arg_length cvc)) "Invalid cvc length"
  (let cvc := force_bytes cvc in
   let session_key := CT_ecdh his_pubkey (priv kp) in
   let message := card_nonce ++ Buffer_from_string cmd in
   let md := sha256s message in
   let! m := xor_bytes session_key md in
   let mask := slice m 0 (len cvc) in
   let! xcvc := xor_bytes cvc mask in
   Ok {| sk := session_key; ag := {| epubkey := pub kp; xcvc := xcvc |} |}).


(** A recovered key that does not meet the constraints the caller supplied. *)
Definition candidate_rejected (addr : option jsstring)
    (expect_pubkey : option Buffer) (is_testnet : bool) (pk : Buffer) : Prop :=
  (exists expected, expect_pubkey = Some expected /\ expected <> pk)
  \/ (exists c a, addr = Some (c :: a)
                  /\ endsWith (render_address pk is_testnet) (c :: a) = false).

(** A candidate that the loop passes over: its key is recovered and rejected,
    or it is one of the last two and recovery fails. *)
Definition candidate_passed_over (digest sig : Buffer) (addr : option jsstring)
    (expect_pubkey : option Buffer) (is_testnet : bool) (rec_id : Z) : Prop :=
  match CT_sig_to_pubkey digest ((39 + rec_id) :: sig) with
  | Ok pk => candidate_rejected addr expect_pubkey is_testnet pk
  | Throw _ => 2 <= rec_id
  end.

(** A recovered key that meets the constraints the caller supplied. *)
Definition candidate_accepted (addr : option jsstring)
    (expect_pubkey : option Buffer) (is_testnet : bool) (pk : Buffer) : Prop :=
  (forall expected, expect_pubkey = Some expected -> expected = pk)
  /\ (forall c a, addr = Some (c :: a) ->
                  endsWith (render_address pk is_testnet) (c :: a) = true).

Context {derivation : Derivation}.

(** [verify_derive_address]: the address of the first child, [m/0]. *)
Definition verify_derive_address (chain_code master_pub : Buffer)
    (testnet : bool) : derived :=
  let pubkey := CT_bip32_derive chain_code master_pub [Num 0] in
  {| derived_addr := render_address pubkey testnet; d_pubkey := pubkey |}.

End Protocol.

(** ** The older JavaScript port

    The repository also keeps an earlier port of the same module. Its
    [recover_address] tests the trim window with
    [(left.length == right.length) == ADDR_TRIM]: the boolean result of the
    first comparison is converted to a number and compared with the constant. *)

Module Legacy.

Definition trim_window_ok {constants : Constants} (left right : jsstring) : bool :=
  match bool_to_num (len left =? len right) with
  | Num b => b =? ADDR_TRIM
  | NaN => false
  end.

End Legacy.

(** ** [utils.js]

    [randomStringGenerator(length)]. [picks i] is the index that the
    expression [Math.floor(Math.random() * charactersLength)] gives at turn
    [i] of the loop; [charAt] of an index outside the string is the empty
    string. *)

Module Utils.

Definition characters : jsstring :=
  str "ABCDEFGHIJKLMNOPQRSTUVWXYZabcdefghijklmnopqrstuvwxyz0123456789".

Definition charAt (s : jsstring) (i : Z) : jsstring :=
  match char_at s i with
  | Some c => [c]
  | None => []
  end.

Fixpoint generator_loop (picks : nat -> Z) (turns i : nat) (result : jsstring)
  : jsstring :=
  match turns with
  | O => result
  | S turns' =>
      generator_loop picks turns' (S i) (result ++ charAt characters (picks i))
  end.

Definition randomStringGenerator (picks : nat -> Z) (length : Z) : jsstring :=
  generator_loop picks (Z.to_nat length) 0%nat (str " ").

End Utils.

(** ** A small stand-in for the collaborators

    Enough of [./compat] and [./constants] to run the protocol functions on
    concrete inputs. A signature of digest [d] under key [k] is [d ++ k]; a
    recoverable signature carries a header byte in front. *)

Module Fixture.

Definition pad32 (m : Buffer) : Buffer := firstn 32 (m ++ repeat 0 32).

Definition alphabet : jsstring := str "abcdefghijklmnopqrstuvwxyz234567".

Definition letter (x : Z) : ascii := nth (Z.to_nat (x mod 32)) alphabet "a"%char.

Definition buf_eqb (a b : Buffer) : bool := Buffer_compare a b =? 0.

Definition compat : Compat := {|
  sha256s := pad32;
  hash160 := fun b => firstn 20 (pad32 b);
  base32Encode := flat_map (fun x => [letter (x / 32); letter x]);
  CT_sig_verify := fun sig msg_digest pub => buf_eqb sig (msg_digest ++ pub);
  CT_sig_to_pubkey := fun msg_digest rec_sig =>
    match rec_sig with
    | _ :: body =>
        if buf_eqb (firstn 32 body) msg_digest
        then Ok (skipn 32 body)
        else Throw (Error "recovery failed")
    | [] => Throw (Error "recovery failed")
    end;
  CT_ecdh := fun his_pubkey my_privkey => pad32 (xor his_pubkey my_privkey);
  CT_priv_to_pubkey := fun p => 2 :: p;
  bech32_toWords := fun b => b;
  bech32_encode := fun hrp words => hrp ++ str "1" ++ map letter words
|}.

Definition root0 : Buffer := 3 :: repeat 1 32.
Definition root1 : Buffer := 2 :: repeat 7 32.

Definition constants : Constants := {|
  ADDR_TRIM := 12;
  CARD_NONCE_SIZE := 16;
  USER_NONCE_SIZE := 16;
  FACTORY_ROOT_KEYS := [root0; root1]
|}.

Definition card_nonce : Buffer := repeat 5 16.
Definition my_nonce : Buffer := repeat 9 16.
Definition card_key : Buffer := 2 :: repeat 4 32.
Definition batch_key : Buffer := 3 :: repeat 6 32.

(** The card's signature of the message with no sealed-slot key. *)
Definition good_auth_sig : Buffer :=
  pad32 (OPENDIME ++ card_nonce ++ my_nonce) ++ card_key.

(** A certificate: a header byte, the digest of the signed key, the signer. *)
Definition cert (signed signer : Buffer) : Buffer :=
  31 :: pad32 signed ++ signer.

Definition chain_to (root : Buffer) : list Buffer :=
  [cert card_key batch_key; cert batch_key root].

(** A TAPSIGNER read response: the card key masked with the session key,
    and the card's signature of the proof-of-possession message. *)
Definition ses_key : Buffer := repeat 170 32.
Definition masked_key : Buffer := 2 :: repeat (Z.lxor 4 170) 32.
Definition pop_msg : Buffer := OPENDIME ++ card_nonce ++ my_nonce ++ [0].
Definition tapsigner_read : read_resp := {|
  rd_pubkey := masked_key;
  rd_sig := pad32 pop_msg ++ card_key
|}.

(** A SATSCARD read response for slot 0: the card key in clear, the card's
    signature of the message, and the address the status response announces
    for it, with its middle replaced by separators. *)
Definition satscard_read : read_resp := {|
  rd_pubkey := card_key;
  rd_sig := pad32 pop_msg ++ card_key
|}.
Definition announced_addr : string := "bc1aceeeeeee___eeeeeeeeeeee".

(** A signature from which the stand-in recovers a key: the digest, then the
    key. *)
Definition signer_key : Buffer := repeat 6 32.
Definition digest_sig : Buffer := repeat 1 32 ++ signer_key.

(** A digest and a signature from which no key can be recovered. *)
Definition digest : Buffer := repeat 1 32.
Definition stray_sig : Buffer := repeat 0 64.

(** The same collaborators with a signature check that accepts everything,
    for the properties in which the check plays no part. *)
Definition accepting : Compat := {|
  sha256s := pad32;
  hash160 := @hash160 compat;
  base32Encode := @base32Encode compat;
  CT_sig_verify := fun _ _ _ => true;
  CT_sig_to_pubkey := @CT_sig_to_pubkey compat;
  CT_ecdh := @CT_ecdh compat;
  CT_priv_to_pubkey := @CT_priv_to_pubkey compat;
  bech32_toWords := @bech32_toWords compat;
  bech32_encode := @bech32_encode compat
|}.

(** A stand-in for the key derivation: the chain code is mixed into the
    master key. *)
Definition derivation : Derivation := {|
  CT_bip32_derive := fun chain_code master _ =>
    firstn 1 master ++ xor (skipn 1 master) chain_code
|}.

Definition status (ver : string) (tapsigner : bool) (addr : string) : status_resp := {|
  st_ver := str ver;
  st_card_nonce := card_nonce;
  st_pubkey := card_key;
  st_is_tapsigner := tapsigner;
  st_slots := [0];
  st_addr := str addr
|}.

End Fixture.

(** * Properties *)

(** ** Facts about the JavaScript layer *)

Lemma len_nonneg {A : Type} (l : list A) : 0 <= len l.
Proof. unfold len. lia. Qed.

Lemma len_app {A : Type} (a b : list A) : len (a ++ b) = len a + len b.
Proof. unfold len. rewrite length_app. lia. Qed.

Lemma len_cons {A : Type} (x : A) (l : list A) : len (x :: l) = 1 + len l.
Proof. unfold len. cbn [length]. lia. Qed.

Lemma len_nil {A : Type} : len (@nil A) = 0.
Proof. reflexivity. Qed.

Lemma code_inj (a b : ascii) : code a = code b -> a = b.
Proof.
  unfold code. intros H. apply N2Z.inj in H.
  rewrite <- (ascii_N_embedding a), <- (ascii_N_embedding b). now rewrite H.
Qed.

Lemma ascii_eqb_eq (a b : ascii) : ascii_eqb a b = true <-> a = b.
Proof.
  unfold ascii_eqb. rewrite Z.eqb_eq. split.
  - apply code_inj.
  - now intros ->.
Qed.

Lemma ascii_eqb_refl (a : ascii) : ascii_eqb a a = true.
Proof. now apply ascii_eqb_eq. Qed.

Lemma ascii_eqb_neq (a b : ascii) : ascii_eqb a b = false <-> a <> b.
Proof.
  rewrite <- ascii_eqb_eq. destruct (ascii_eqb a b); split; congruence.
Qed.

Lemma Buffer_compare_eq (a b : Buffer) : Buffer_compare a b = 0 <-> a = b.
Proof.
  revert b. induction a as [|x a IH]; intros [|y b]; cbn; try (split; congruence).
  destruct (x <? y) eqn:Hxy; [split; [lia | intros [= -> ->]; lia] |].
  destruct (y <? x) eqn:Hyx; [split; [lia | intros [= -> ->]; lia] |].
  rewrite IH. apply Z.ltb_ge in Hxy, Hyx. assert (x = y) by lia. subst.
  split; [now intros -> | now intros [= ->]].
Qed.

Lemma Buffer_compare_refl (a : Buffer) : Buffer_compare a a = 0.
Proof. now apply Buffer_compare_eq. Qed.

(** ** The path codec: range check *)

Section PathRange.

(** The range test accepts every number: the boolean [0 <= num] becomes 0 or
    1, and both are below [HARDENED]. *)
Lemma path_component_in_range_always (num : jsnum) :
  path_component_in_range num = true.
Proof.
  unfold path_component_in_range, bool_to_num, num_lt, HARDENED.
  destruct (num_le (Num 0) num); reflexivity.
Qed.

(** A component that is a lone hardening marker is refused as malformed,
    wherever it stands in the path. *)
Lemma str2path_loop_lone_marker (c : ascii) (rest : list jsstring) (rv : list jsnum) :
  includes (str "'phHP") (Some c) = true ->
  str2path_loop ([c] :: rest) rv = Throw (MalformedPathError [c]).
Proof.
  intros Hc. cbn [str2path_loop].
  assert (Hm : str_eqb [c] (str "m") = false).
  { cbn. destruct (ascii_eqb c "m") eqn:E; [|reflexivity].
    apply ascii_eqb_eq in E. subst c. discriminate Hc. }
  rewrite Hm. cbn [len length Z.of_nat Z.eqb Pos.of_succ_nat].
  change (char_at [c] (1 - 1)) with (Some c). rewrite Hc. reflexivity.
Qed.

End PathRange.

(** C7. What [str2path] does on components outside [0, 2^31): the range test
    of [path_component_in_range] lets every number through, so
    ["m/2147483648"], the hardened ["m/2147483648h"] and the negative
    ["m/-5"] are all parsed instead of being refused with a range error; a
    component without digits becomes [NaN]. Only the lone hardening marker is
    refused, as malformed. *)
Theorem str2path_out_of_range_accepted :
  str2path (str "m/2147483648") = Ok [Num 2147483648]
  /\ str2path (str "m/2147483648h") = Ok [Num 2147483648]
  /\ str2path (str "m/-5") = Ok [Num (-5)]
  /\ str2path (str "m/x") = Ok [NaN]
  /\ (forall num, path_component_in_range num = true)
  /\ str2path (str "m/h") = Throw (MalformedPathError (str "h")).
Proof.
  repeat split; try reflexivity. apply path_component_in_range_always.
Qed.

(** ** The nonce generator *)

Section Nonce.

(** Reading index [-1] of a buffer gives [undefined]. *)
Lemma Buffer_get_minus_one (rv : Buffer) : Buffer_get rv (-1) = None.
Proof. reflexivity. Qed.

(** The first draw is returned whenever it has at least one byte: its first
    byte is a number and differs from [undefined]. *)
Lemma pick_nonce_first_draw (draws : nat -> Buffer) :
  draws 0%nat <> [] -> pick_nonce draws = Some (draws 0%nat).
Proof.
  intros Hne. unfold pick_nonce. cbn [pick_nonce_loop].
  destruct (draws 0%nat) as [|b rv] eqn:E; [congruence|].
  reflexivity.
Qed.

(** With empty draws every attempt fails the test and the function falls out
    of its loop, returning [undefined]. *)
Lemma pick_nonce_exhausted (draws : nat -> Buffer) :
  (forall i, draws i = []) -> pick_nonce draws = None.
Proof.
  intros H. unfold pick_nonce. cbn [pick_nonce_loop].
  now rewrite !H.
Qed.

End Nonce.

(** C4. [pick_nonce] on an entropy source that yields sixteen zero bytes: the
    buffer has a single distinct value and equal first and last bytes, and it
    is returned at the first attempt, with no retry and no failure. *)
Theorem pick_nonce_returns_constant_nonce :
  let zeros := repeat 0 16 in
  pick_nonce (fun _ => zeros) = Some zeros
  /\ Set_size zeros = 1
  /\ Buffer_get zeros 0 = Buffer_get zeros (len zeros - 1).
Proof.
  repeat split.
Qed.

(** ** The certificate chain verifier *)

Section Certificates.

Context {compat : Compat} {constants : Constants}.

Variables (card_nonce card_pubkey my_nonce : Buffer).
Variables (chain : list Buffer) (signature : Buffer).
Variable slot_pubkey : option str_or_buf.

Lemma verify_certs_ll_too_short :
  len chain < 2 ->
  verify_certs_ll card_nonce card_pubkey my_nonce chain signature slot_pubkey
  = Throw ChainTooShortError.
Proof.
  intros H. unfold verify_certs_ll, throw_if.
  apply Z.ltb_lt in H. now rewrite H.
Qed.

(** Once the checks pass and the chain is walked, the outcome is decided by
    the comparison of the last key with the first factory root key alone. *)
Lemma verify_certs_ll_walked (final root0 : Buffer) (others : list Buffer) :
  2 <= len chain ->
  auth_checks_pass card_nonce card_pubkey my_nonce signature slot_pubkey ->
  follow_chain chain card_pubkey = Ok final ->
  FACTORY_ROOT_KEYS = root0 :: others ->
  verify_certs_ll card_nonce card_pubkey my_nonce chain signature slot_pubkey
  = if Buffer_compare final root0 =? 0 then Ok final
    else Throw CounterfeitDeviceError.
Proof.
  intros Hlen (Hmsg & Hslot & Hsig) Hwalk Hroots.
  unfold verify_certs_ll, throw_if.
  replace (len chain <? 2) with false by (symmetry; apply Z.ltb_ge; lia).
  rewrite !len_app. change (len OPENDIME) with 8.
  replace (8 + (len card_nonce + len my_nonce)
           =? 8 + CARD_NONCE_SIZE + USER_NONCE_SIZE) with true
    by (symmetry; apply Z.eqb_eq; lia).
  cbn [negb].
  destruct (slot_bytes slot_pubkey) as [s|] eqn:Es.
  - rewrite (Hslot s eq_refl). cbn [Z.eqb Pos.eqb negb].
    rewrite Hsig. cbn [negb]. rewrite Hwalk. cbn [bind]. rewrite Hroots.
    now destruct (Buffer_compare final root0 =? 0).
  - rewrite Hsig. cbn [negb]. rewrite Hwalk. cbn [bind]. rewrite Hroots.
    now destruct (Buffer_compare final root0 =? 0).
Qed.

(** A chain that ends at a key outside the root set is refused as
    counterfeit. *)
Lemma verify_certs_ll_unknown_root (final : Buffer) :
  2 <= len chain ->
  auth_checks_pass card_nonce card_pubkey my_nonce signature slot_pubkey ->
  follow_chain chain card_pubkey = Ok final ->
  FACTORY_ROOT_KEYS <> [] ->
  ~ In final FACTORY_ROOT_KEYS ->
  verify_certs_ll card_nonce card_pubkey my_nonce chain signature slot_pubkey
  = Throw CounterfeitDeviceError.
Proof.
  intros Hlen Hauth Hwalk Hne Hnotin.
  destruct FACTORY_ROOT_KEYS as [|root0 others] eqn:Hroots; [congruence|].
  rewrite (verify_certs_ll_walked final root0 others Hlen Hauth Hwalk Hroots).
  destruct (Buffer_compare final root0 =? 0) eqn:E; [|reflexivity].
  apply Z.eqb_eq, Buffer_compare_eq in E. subst. exfalso. apply Hnotin. now left.
Qed.

(** A chain that ends at the first root key is accepted, and that key is
    returned. *)
Lemma verify_certs_ll_first_root (root0 : Buffer) (others : list Buffer) :
  2 <= len chain ->
  auth_checks_pass card_nonce card_pubkey my_nonce signature slot_pubkey ->
  follow_chain chain card_pubkey = Ok root0 ->
  FACTORY_ROOT_KEYS = root0 :: others ->
  verify_certs_ll card_nonce card_pubkey my_nonce chain signature slot_pubkey
  = Ok root0.
Proof.
  intros Hlen Hauth Hwalk Hroots.
  rewrite (verify_certs_ll_walked root0 root0 others Hlen Hauth Hwalk Hroots).
  now rewrite Buffer_compare_refl.
Qed.

(** A chain that ends at any other member of the root set is refused. *)
Lemma verify_certs_ll_later_root (final root0 : Buffer) (others : list Buffer) :
  2 <= len chain ->
  auth_checks_pass card_nonce card_pubkey my_nonce signature slot_pubkey ->
  follow_chain chain card_pubkey = Ok final ->
  FACTORY_ROOT_KEYS = root0 :: others ->
  final <> root0 ->
  verify_certs_ll card_nonce card_pubkey my_nonce chain signature slot_pubkey
  = Throw CounterfeitDeviceError.
Proof.
  intros Hlen Hauth Hwalk Hroots Hneq.
  rewrite (verify_certs_ll_walked final root0 others Hlen Hauth Hwalk Hroots).
  destruct (Buffer_compare final root0 =? 0) eqn:E; [|reflexivity].
  apply Z.eqb_eq, Buffer_compare_eq in E. contradiction.
Qed.

End Certificates.

(** C1. [verify_certs_ll] on a two-link chain that ends at the second key of
    the factory root set, with a valid authentication signature: the walk
    reaches that root key, and the call still fails as counterfeit, because
    the last key is compared with [FACTORY_ROOT_KEYS[0]] only. The same card
    with a chain to the first root key is accepted, and a chain of one link is
    refused as too short. *)
Theorem verify_certs_ll_second_root_rejected :
  let run := @verify_certs_ll Fixture.compat Fixture.constants
               Fixture.card_nonce Fixture.card_key Fixture.my_nonce in
  In Fixture.root1 (@FACTORY_ROOT_KEYS Fixture.constants)
  /\ @follow_chain Fixture.compat (Fixture.chain_to Fixture.root1) Fixture.card_key
     = Ok Fixture.root1
  /\ @auth_checks_pass Fixture.compat Fixture.constants Fixture.card_nonce
       Fixture.card_key Fixture.my_nonce Fixture.good_auth_sig None
  /\ run (Fixture.chain_to Fixture.root1) Fixture.good_auth_sig None
     = Throw CounterfeitDeviceError
  /\ run (Fixture.chain_to Fixture.root0) Fixture.good_auth_sig None
     = Ok Fixture.root0
  /\ run [Fixture.cert Fixture.card_key Fixture.root0] Fixture.good_auth_sig None
     = Throw ChainTooShortError.
Proof.
  cbv zeta. split; [right; now left|].
  split; [reflexivity|].
  split; [repeat split; intros s Hs; discriminate Hs|].
  repeat split.
Qed.

(** C10. For a status response of version 0.9.0, [verify_certs] gives the
    result it gives with no sealed-slot key, whatever key is supplied: the
    low-level verifier is called with [null], and a successful call has
    verified the signature of prefix, card nonce and host nonce only. *)
Theorem verify_certs_v090_ignores_slot
    {compat : Compat} {constants : Constants}
    (status : status_resp) (check : check_resp) (certs : certs_resp)
    (my_nonce : Buffer) (slot_pubkey : option str_or_buf) :
  st_ver status = str "0.9.0" ->
  verify_certs status check certs my_nonce slot_pubkey
  = verify_certs status check certs my_nonce None
  /\ verify_certs status check certs my_nonce slot_pubkey
     = verify_certs_ll (st_card_nonce status) (st_pubkey status) my_nonce
         (cert_chain certs) (auth_sig check) None
  /\ (forall root,
        verify_certs status check certs my_nonce slot_pubkey = Ok root ->
        CT_sig_verify (auth_sig check)
          (sha256s (OPENDIME ++ st_card_nonce status ++ my_nonce))
          (st_pubkey status) = true).
Proof.
  intros Hver. unfold verify_certs. rewrite Hver.
  change (str_eqb (str "0.9.0") (str "0.9.0")) with true. cbv iota.
  split; [reflexivity|]. split; [reflexivity|].
  intros root. unfold verify_certs_ll, throw_if.
  destruct (len (cert_chain certs) <? 2); [discriminate|].
  destruct (negb (len (OPENDIME ++ st_card_nonce status ++ my_nonce) =? _));
    [discriminate|].
  cbn [slot_bytes certs_msg].
  destruct (CT_sig_verify _ _ _); [reflexivity|discriminate].
Qed.

Lemma verify_certs_v090_ignores_slot_witness :
  let status := Fixture.status "0.9.0" false "" in
  let check := {| auth_sig := Fixture.good_auth_sig |} in
  let certs := {| cert_chain := Fixture.chain_to Fixture.root0 |} in
  st_ver status = str "0.9.0"
  /\ @verify_certs Fixture.compat Fixture.constants status check certs
       Fixture.my_nonce (Some (OfBuf (repeat 8 33)))
     = @verify_certs Fixture.compat Fixture.constants status check certs
         Fixture.my_nonce None.
Proof.
  cbv zeta. split; [reflexivity|].
  apply (@verify_certs_v090_ignores_slot Fixture.compat Fixture.constants
           (Fixture.status "0.9.0" false "")
           {| auth_sig := Fixture.good_auth_sig |}
           {| cert_chain := Fixture.chain_to Fixture.root0 |}
           Fixture.my_nonce (Some (OfBuf (repeat 8 33)))).
  reflexivity.
Defined.

(** ** Key recovery (proof of possession) *)

Section KeyRecovery.

Context {compat : Compat} {constants : Constants}.

(** The outcome of [recover_pubkey] once the device type and the framing are
    right: the unmasked key is passed to [CT_sig_verify] in the place of the
    signature, and the response signature in the place of the key. *)
Lemma recover_pubkey_outcome (status : status_resp) (read : read_resp)
    (my_nonce ses_key rest : Buffer) :
  st_is_tapsigner status = true ->
  len (st_card_nonce status) + len my_nonce = CARD_NONCE_SIZE + USER_NONCE_SIZE ->
  xor_bytes (slice_from (rd_pubkey read) 1) ses_key = Ok rest ->
  let unmasked := slice (rd_pubkey read) 0 1 ++ rest in
  let msg := OPENDIME ++ st_card_nonce status ++ my_nonce ++ [0] in
  recover_pubkey status read my_nonce ses_key
  = if CT_sig_verify unmasked (sha256s msg) (rd_sig read)
    then Ok unmasked else Throw ProofOfPossessionError.
Proof.
  intros Htap Hlen Hxor. cbv zeta. unfold recover_pubkey, throw_if.
  rewrite Htap. cbn [negb]. rewrite !len_app.
  change (len OPENDIME) with 8. change (len [0]) with 1.
  replace (8 + (len (st_card_nonce status) + (len my_nonce + 1))
           =? 8 + CARD_NONCE_SIZE + USER_NONCE_SIZE + 1) with true
    by (symmetry; apply Z.eqb_eq; lia).
  cbn [negb]. rewrite Hxor. cbn [bind].
  now destruct (CT_sig_verify _ _ _).
Qed.

(** A card that is not a TAPSIGNER is refused before anything else. *)
Lemma recover_pubkey_wrong_device (status : status_resp) (read : read_resp)
    (my_nonce ses_key : Buffer) :
  st_is_tapsigner status = false ->
  recover_pubkey status read my_nonce ses_key
  = Throw (Error "Card is not a Tapsigner").
Proof.
  intros H. unfold recover_pubkey, throw_if. now rewrite H.
Qed.

End KeyRecovery.

(** C3. [recover_pubkey] on a genuine TAPSIGNER response: the masked key
    unmasks to the card key, the response signature verifies against that key
    and the digest of 'OPENDIME' || card_nonce || my_nonce || 0, and the call
    still fails with the proof-of-possession error, because the key and the
    signature are handed to [CT_sig_verify] in each other's place. *)
Theorem recover_pubkey_genuine_response_rejected :
  let status := Fixture.status "1.0.0" true "" in
  let read := Fixture.tapsigner_read in
  @xor_bytes (slice_from (rd_pubkey read) 1) Fixture.ses_key
    = Ok (slice_from Fixture.card_key 1)
  /\ slice (rd_pubkey read) 0 1 ++ slice_from Fixture.card_key 1 = Fixture.card_key
  /\ @CT_sig_verify Fixture.compat (rd_sig read)
       (@sha256s Fixture.compat Fixture.pop_msg) Fixture.card_key = true
  /\ @recover_pubkey Fixture.compat Fixture.constants status read
       Fixture.my_nonce Fixture.ses_key
     = Throw ProofOfPossessionError.
Proof.
  repeat split.
Qed.

(** ** The recoverable signature reconstructor *)

Section RecoverableSig.

Context {compat : Compat}.

Variables (digest sig : Buffer).
Variables (addr : option jsstring) (expect_pubkey : option Buffer).
Variable is_testnet : bool.

(** When every candidate is passed over, the loop ends with the recovery
    error. *)
Lemma recover_loop_exhausted (ids : list Z) :
  Forall (candidate_passed_over digest sig addr expect_pubkey is_testnet) ids ->
  recover_loop digest sig addr expect_pubkey is_testnet ids
  = Throw SignatureRecoveryError.
Proof.
  induction 1 as [|rec_id ids Hid _ IH]; [reflexivity|].
  cbn [recover_loop]. unfold candidate_passed_over in Hid.
  destruct (CT_sig_to_pubkey digest ((39 + rec_id) :: sig)) as [pk|e].
  - destruct Hid as [(expected & -> & Hneq) | (c & a & -> & Hends)].
    + assert (Hc : (Buffer_compare expected pk =? 0) = false).
      { apply Z.eqb_neq. now rewrite Buffer_compare_eq. }
      rewrite Hc. cbn [negb]. exact IH.
    + rewrite Hends.
      destruct expect_pubkey as [expected|]; [|exact IH].
      destruct (negb (Buffer_compare expected pk =? 0)); exact IH.
  - apply Z.leb_le in Hid. rewrite Hid. exact IH.
Qed.

Lemma make_recoverable_sig_exhausted :
  len digest = 32 -> len sig = 64 ->
  Forall (candidate_passed_over digest sig addr expect_pubkey is_testnet)
         [0; 1; 2; 3] ->
  make_recoverable_sig digest sig addr expect_pubkey is_testnet
  = Throw SignatureRecoveryError.
Proof.
  intros Hd Hs Hall. unfold make_recoverable_sig, throw_if.
  rewrite Hd, Hs. cbn [Z.eqb Pos.eqb negb].
  now apply recover_loop_exhausted.
Qed.

End RecoverableSig.

(** A failed recovery for candidate 0 is swallowed by the [catch] block; with
    no constraint given, the candidate is then returned. *)
Lemma make_recoverable_sig_first_failure {compat : Compat}
    (digest sig : Buffer) (is_testnet : bool) (e : exn) :
  len digest = 32 -> len sig = 64 ->
  CT_sig_to_pubkey digest (39 :: sig) = Throw e ->
  make_recoverable_sig digest sig None None is_testnet = Ok (39 :: sig).
Proof.
  intros Hd Hs Hfail. unfold make_recoverable_sig, throw_if.
  rewrite Hd, Hs. cbn [Z.eqb Pos.eqb negb recover_loop].
  change (39 + 0) with 39. rewrite Hfail. reflexivity.
Qed.

(** C5. [make_recoverable_sig] on a digest and signature for which recovery
    fails at candidate 0: the failure does not reach the caller. With no
    constraint the call returns candidate 0 as the recoverable signature; with
    an expected address it fails on the undefined key, not with the failure of
    the recovery. A failure at candidate 2 or 3 is skipped, and when every
    candidate is rejected the call fails with the recovery error. *)
Theorem make_recoverable_sig_failure_not_propagated :
  let run := @make_recoverable_sig Fixture.compat Fixture.digest Fixture.stray_sig in
  @CT_sig_to_pubkey Fixture.compat Fixture.digest (39 :: Fixture.stray_sig)
    = Throw (Error "recovery failed")
  /\ run None None false = Ok (39 :: Fixture.stray_sig)
  /\ run (Some (str "xyz")) None false
     = Throw (TypeError "Cannot read properties of undefined (reading 'length')")
  /\ @recover_loop Fixture.compat Fixture.digest Fixture.stray_sig
       (Some (str "xyz")) None false [2; 3]
     = Throw SignatureRecoveryError.
Proof.
  repeat split.
Qed.

(** ** Address recovery *)

Section Separators.

Variable sep : ascii.

Lemma has_sep_In (s : jsstring) :
  existsb (fun y => ascii_eqb y sep) s = true <-> In sep s.
Proof.
  rewrite existsb_exists. split.
  - intros (y & Hy & E). apply ascii_eqb_eq in E. now subst.
  - intros H. exists sep. split; [exact H | apply ascii_eqb_refl].
Qed.

Lemma indexOf_absent (s : jsstring) : ~ In sep s -> indexOf sep s = -1.
Proof.
  induction s as [|x r IH]; intros Hn; [reflexivity|]. cbn [indexOf].
  destruct (ascii_eqb x sep) eqn:E.
  - apply ascii_eqb_eq in E. subst. exfalso. apply Hn. now left.
  - rewrite IH by (intros H; apply Hn; now right). reflexivity.
Qed.

(** When the separator occurs, [indexOf] is the length of the text in front
    of its first occurrence. *)
Lemma indexOf_present (s : jsstring) :
  In sep s ->
  indexOf sep s = len (before_first sep s)
  /\ firstn (length (before_first sep s)) s = before_first sep s
  /\ len (before_first sep s) < len s.
Proof.
  induction s as [|x r IH]; intros Hin; [destruct Hin|].
  cbn [indexOf before_first]. destruct (ascii_eqb x sep) eqn:E.
  - rewrite len_cons. pose proof (len_nonneg r). repeat split. rewrite len_nil. lia.
  - destruct Hin as [->|Hin]; [rewrite ascii_eqb_refl in E; discriminate|].
    destruct (IH Hin) as (Hi & Hf & Hl). rewrite Hi.
    pose proof (len_nonneg (before_first sep r)) as Hnn.
    replace (len (before_first sep r) <? 0) with false
      by (symmetry; apply Z.ltb_ge; lia).
    rewrite !len_cons. cbn [length firstn]. rewrite Hf. repeat split; lia.
Qed.

Lemma lastIndexOf_absent (s : jsstring) :
  ~ In sep s -> lastIndexOf sep s = -1 /\ after_last sep s = s.
Proof.
  induction s as [|x r IH]; intros Hn; [split; reflexivity|].
  assert (Hr : ~ In sep r) by (intros H; apply Hn; now right).
  destruct (IH Hr) as (Hi & Ha). cbn [lastIndexOf after_last]. rewrite Hi.
  assert (E : ascii_eqb x sep = false).
  { apply ascii_eqb_neq. intros ->. apply Hn. now left. }
  rewrite E. cbn.
  destruct (existsb (fun y => ascii_eqb y sep) r) eqn:Ex; [|split; reflexivity].
  apply has_sep_In in Ex. contradiction.
Qed.

(** When the separator occurs, the text after index [lastIndexOf] is the text
    after its last occurrence. *)
Lemma lastIndexOf_present (s : jsstring) :
  In sep s ->
  0 <= lastIndexOf sep s < len s
  /\ skipn (Z.to_nat (lastIndexOf sep s + 1)) s = after_last sep s.
Proof.
  induction s as [|x r IH]; intros Hin; [destruct Hin|].
  cbn [lastIndexOf after_last]. rewrite len_cons.
  destruct (existsb (fun y => ascii_eqb y sep) r) eqn:Ex.
  - apply has_sep_In in Ex. destruct (IH Ex) as ((H0 & H1) & Hs).
    replace (0 <=? lastIndexOf sep r) with true by (symmetry; apply Z.leb_le; lia).
    split; [lia|].
    replace (Z.to_nat (1 + lastIndexOf sep r + 1))
      with (S (Z.to_nat (lastIndexOf sep r + 1))) by lia.
    exact Hs.
  - assert (Hr : ~ In sep r).
    { intros H. apply has_sep_In in H. congruence. }
    destruct (lastIndexOf_absent r Hr) as (Hi & _). rewrite Hi.
    destruct Hin as [->|Hin]; [|contradiction].
    rewrite ascii_eqb_refl. pose proof (len_nonneg r).
    change (0 <=? -1) with false. cbv iota. split; [lia|reflexivity].
Qed.

End Separators.

Lemma clamp_inside (n i : Z) : 0 <= i <= n -> clamp n i = i.
Proof.
  intros H. unfold clamp.
  replace (i <? 0) with false by (symmetry; apply Z.ltb_ge; lia). lia.
Qed.

(** With a separator in the expected address, the code compares with the text
    before the first separator and the text after the last one. *)
Lemma expect_ends_with_separator (expect : jsstring) :
  In "_"%char expect ->
  expect_left expect = before_first "_" expect
  /\ expect_right expect = after_last "_" expect.
Proof.
  intros Hin. unfold expect_left, expect_right, slice, slice_from.
  destruct (indexOf_present "_" expect Hin) as (Hi & Hf & Hl).
  destruct (lastIndexOf_present "_" expect Hin) as (Hr & Hs).
  pose proof (len_nonneg (before_first "_" expect)) as Hnn.
  pose proof (len_nonneg expect) as Hne.
  rewrite Hi, !clamp_inside by lia.
  change (Z.to_nat 0) with 0%nat. cbn [skipn]. split; [|exact Hs].
  replace (Z.to_nat (len (before_first "_" expect) - 0))
    with (length (before_first "_" expect)) by (unfold len; lia).
  exact Hf.
Qed.

(** Without a separator the two ends the code takes have different lengths,
    unless the expected address is empty. *)
Lemma expect_ends_without_separator (expect : jsstring) :
  ~ In "_"%char expect ->
  len (expect_left expect) = len (expect_right expect) ->
  expect = [].
Proof.
  intros Hn. unfold expect_left, expect_right, slice, slice_from.
  rewrite (indexOf_absent "_" expect Hn).
  destruct (lastIndexOf_absent "_" expect Hn) as (-> & _).
  destruct expect as [|c e]; [reflexivity|]. intros H. exfalso.
  revert H. unfold clamp. rewrite len_cons. pose proof (len_nonneg e) as Hnn.
  change (-1 + 1) with 0. cbn [Z.ltb Z.compare].
  replace (Z.min 0 (1 + len e)) with 0 by lia. cbn [Z.to_nat skipn].
  unfold len at 1. rewrite length_firstn. rewrite len_cons.
  unfold len in *. cbn [length]. lia.
Qed.

Section AddressRecovery.

Context {compat : Compat} {constants : Constants}.

Variables (expect addr : jsstring).

Lemma trim_test_sound : trim_test expect addr = true -> trim_window_matches expect addr.
Proof.
  unfold trim_test. rewrite !andb_true_iff, !Z.eqb_eq.
  intros (((Hs & He) & Hlr) & Hl).
  destruct (existsb (fun y => ascii_eqb y "_") expect) eqn:Ex.
  - apply has_sep_In in Ex.
    destruct (expect_ends_with_separator expect Ex) as (El & Er).
    rewrite El, Er in *. unfold trim_window_matches. repeat split; congruence.
  - assert (Hn : ~ In "_"%char expect).
    { intros H. apply has_sep_In in H. congruence. }
    pose proof (expect_ends_without_separator expect Hn Hlr) as ->.
    unfold trim_window_matches. cbn [before_first after_last].
    change (expect_left []) with (@nil ascii) in *.
    change (expect_right []) with (@nil ascii) in *.
    repeat split; congruence.
Qed.

Lemma trim_test_complete :
  In "_"%char expect -> trim_window_matches expect addr ->
  trim_test expect addr = true.
Proof.
  intros Hin (Hs & He & Hl & Hr). unfold trim_test.
  destruct (expect_ends_with_separator expect Hin) as (-> & ->).
  rewrite Hs, He, Hl, Hr, !Z.eqb_refl. reflexivity.
Qed.

End AddressRecovery.

(** C2. [recover_address], for a status response that is not a TAPSIGNER's,
    with nonces of the framed length and a signature of the card that
    verifies: a successful call returns the response key with its rendered
    address, and that address starts with the text before the first separator
    of the expected address, ends with the text after the last one, and both
    texts have [ADDR_TRIM] characters; when any of these fails the call
    throws 'Corrupt response'; and when the expected address has a separator
    and all of them hold, the call succeeds. *)
Theorem recover_address_trim_check
    {compat : Compat} {constants : Constants}
    (status : status_resp) (read : read_resp) (my_nonce : Buffer) :
  let sl := nth 0 (st_slots status) 0 in
  let msg := OPENDIME ++ st_card_nonce status ++ my_nonce ++ [sl mod 256] in
  let addr := render_address (rd_pubkey read) false in
  let answer := {| r_pubkey := rd_pubkey read; r_addr := addr |} in
  st_is_tapsigner status = false ->
  len (st_card_nonce status) + len my_nonce = CARD_NONCE_SIZE + USER_NONCE_SIZE ->
  CT_sig_verify (rd_sig read) (sha256s msg) (rd_pubkey read) = true ->
  (forall r, recover_address status read my_nonce = Ok r ->
             r = answer /\ trim_window_matches (st_addr status) addr)
  /\ (~ trim_window_matches (st_addr status) addr ->
      recover_address status read my_nonce = Throw CorruptResponse)
  /\ (In "_"%char (st_addr status) ->
      trim_window_matches (st_addr status) addr ->
      recover_address status read my_nonce = Ok answer).
Proof.
  cbv zeta. intros Htap Hlen Hsig.
  assert (Hrun : recover_address status read my_nonce
                 = if trim_test (st_addr status)
                        (render_address (rd_pubkey read) false)
                   then Ok {| r_pubkey := rd_pubkey read;
                              r_addr := render_address (rd_pubkey read) false |}
                   else Throw CorruptResponse).
  { unfold recover_address, throw_if. rewrite Htap, !len_app.
    change (len OPENDIME) with 8.
    change (len [nth 0 (st_slots status) 0 mod 256]) with 1.
    replace (8 + (len (st_card_nonce status) + (len my_nonce + 1))
             =? 8 + CARD_NONCE_SIZE + USER_NONCE_SIZE + 1) with true
      by (symmetry; apply Z.eqb_eq; lia).
    cbn [negb]. rewrite Hsig. cbn [negb]. fold (trim_test (st_addr status)
      (render_address (rd_pubkey read) false)).
    now destruct (trim_test _ _). }
  rewrite Hrun.
  destruct (trim_test _ _) eqn:Et.
  - apply trim_test_sound in Et. split; [|split].
    + intros r [= <-]. now split.
    + intros Hn. contradiction.
    + reflexivity.
  - split; [|split].
    + intros r H. discriminate H.
    + reflexivity.
    + intros Hin Hm. rewrite (trim_test_complete _ _ Hin Hm) in Et. discriminate Et.
Qed.

Lemma recover_address_trim_check_witness :
  let status := Fixture.status "1.0.0" false Fixture.announced_addr in
  @recover_address Fixture.compat Fixture.constants status
    Fixture.satscard_read Fixture.my_nonce
  = Ok {| r_pubkey := Fixture.card_key;
          r_addr := str "bc1aceeeeeeeeeeeeeeeeeee" |}.
Proof.
  cbv zeta.
  apply (@recover_address_trim_check Fixture.compat Fixture.constants
           (Fixture.status "1.0.0" false Fixture.announced_addr)
           Fixture.satscard_read Fixture.my_nonce);
    try reflexivity.
  - right. right. right. right. right. right. right. right. right. right.
    right. right. now left.
  - repeat split.
Defined.

(** The test of the older port can pass only when [ADDR_TRIM] is 0 or 1,
    whatever the lengths are. *)
Remark legacy_trim_window_never_passes {constants : Constants}
    (left right : jsstring) :
  2 <= ADDR_TRIM -> Legacy.trim_window_ok left right = false.
Proof.
  intros H. unfold Legacy.trim_window_ok, bool_to_num.
  destruct (len left =? len right); apply Z.eqb_neq; lia.
Qed.

(** ** Slices and XOR of buffers *)


Lemma slice_len {A : Type} (s : list A) (i j : Z) :
  0 <= i <= j -> j <= len s -> len (slice s i j) = j - i.
Proof.
  intros Hij Hj. unfold slice. rewrite !clamp_inside by lia.
  unfold len in *. rewrite length_firstn, length_skipn. lia.
Qed.

Lemma slice_from_len {A : Type} (s : list A) (i : Z) :
  0 <= i <= len s -> len (slice_from s i) = len s - i.
Proof.
  intros H. unfold slice_from. rewrite clamp_inside by lia.
  unfold len in *. rewrite length_skipn. lia.
Qed.

(** [s.slice(0, -1)] drops the last element. *)
Lemma slice_drop_last {A : Type} (s : list A) (x : A) :
  slice (s ++ [x]) 0 (-1) = s.
Proof.
  unfold slice, clamp.
  replace (len (s ++ [x])) with (len s + 1) by (now rewrite len_app).
  pose proof (len_nonneg s) as Hs.
  change (0 <? 0) with false. change (-1 <? 0) with true. cbv iota.
  replace (Z.min 0 (len s + 1)) with 0 by lia.
  replace (Z.max (len s + 1 + -1) 0 - 0) with (len s) by lia.
  cbn [Z.to_nat skipn]. unfold len. rewrite Nat2Z.id.
  rewrite firstn_app, firstn_all, Nat.sub_diag. cbn [firstn]. apply app_nil_r.
Qed.

Lemma xor_length (a b : Buffer) : len a = len b -> len (xor a b) = len a.
Proof.
  revert b. induction a as [|x a IH]; intros [|y b] H; try reflexivity.
  - rewrite len_cons, len_nil in H. pose proof (len_nonneg a). lia.
  - cbn [xor]. rewrite !len_cons in *. rewrite IH; lia.
Qed.

(** Masking twice with one mask gives the buffer back. *)
Lemma xor_involutive (a m : Buffer) : len a = len m -> xor (xor a m) m = a.
Proof.
  revert m. induction a as [|x a IH]; intros [|y m] H; try reflexivity.
  - rewrite len_cons, len_nil in H. pose proof (len_nonneg a). lia.
  - cbn [xor]. rewrite !len_cons in H. rewrite IH by lia.
    now rewrite Z.lxor_assoc, Z.lxor_nilpotent, Z.lxor_0_r.
Qed.

Lemma xor_bytes_same_length (a b : Buffer) :
  len a = len b -> xor_bytes a b = Ok (xor a b).
Proof.
  intros H. unfold xor_bytes, throw_if. now rewrite H, Z.eqb_refl.
Qed.

(** The stand-in collaborators have the lengths the protocol relies on. *)
Lemma Fixture_laws : CompatLaws Fixture.compat.
Proof.
  assert (Hpad : forall m, len (Fixture.pad32 m) = 32).
  { intros m. unfold len, Fixture.pad32.
    rewrite length_firstn, length_app, repeat_length. lia. }
  split.
  - exact Hpad.
  - intros p q. apply Hpad.
  - intros b. cbn [base32Encode Fixture.compat].
    induction b as [|x b IH]; [cbn; lia|].
    cbn [flat_map app]. rewrite !len_cons in *. lia.
Qed.

(** ** Session key derivation *)




(** ** The ident of a card *)

(** C9. [card_pubkey_to_ident]: a key that is not 33 bytes long throws
    'expecting compressed pubkey'; for a 33-byte key the result is a function
    of the key alone, made of the first four groups of five characters of the
    base32 text of the digest without its first 8 bytes, with a dash between
    groups: 23 characters in all. *)
Theorem card_pubkey_to_ident_shape
    {compat : Compat} (laws : CompatLaws compat) (card_pubkey : Buffer) :
  let md := base32Encode (slice_from (sha256s card_pubkey) 8) in
  let group i := slice md i (i + 5) in
  let ident := group 0 ++ str "-" ++ group 5 ++ str "-"
               ++ group 10 ++ str "-" ++ group 15 in
  (len card_pubkey <> 33 ->
   card_pubkey_to_ident card_pubkey = Throw (Error "expecting compressed pubkey"))
  /\ (len card_pubkey = 33 ->
      card_pubkey_to_ident card_pubkey = Ok ident
      /\ len ident = 23
      /\ Forall (fun i => len (group i) = 5) [0; 5; 10; 15]).
Proof.
  cbv zeta. split.
  - intros H. unfold card_pubkey_to_ident, throw_if.
    apply Z.eqb_neq in H. now rewrite H.
  - intros H.
    set (md := base32Encode (slice_from (sha256s card_pubkey) 8)).
    assert (Hmd : 39 <= len md).
    { pose proof (base32Encode_length (slice_from (sha256s card_pubkey) 8)) as Hb.
      fold md in Hb. rewrite slice_from_len in Hb
        by (rewrite sha256s_length; lia).
      rewrite sha256s_length in Hb. lia. }
    assert (Hg : forall i, 0 <= i <= 15 -> len (slice md i (i + 5)) = 5).
    { intros i Hi. rewrite slice_len; lia. }
    split; [|split].
    + unfold card_pubkey_to_ident, throw_if. rewrite H.
      cbn [Z.eqb Pos.eqb negb fold_left]. fold md.
      change (str "-") with ["-"%char]. cbn [app]. f_equal.
      rewrite <- slice_drop_last with (x := "-"%char). f_equal.
      repeat (rewrite <- app_assoc; cbn [app]). reflexivity.
    + change (str "-") with ["-"%char].
      rewrite !len_app, !Hg by lia. reflexivity.
    + repeat constructor; apply Hg; lia.
Qed.

Lemma card_pubkey_to_ident_shape_witness :
  len Fixture.card_key = 33
  /\ @card_pubkey_to_ident Fixture.compat Fixture.card_key
     = Ok (str "aeaea-eaeae-aeaea-eaeae").
Proof.
  split; [reflexivity|].
  apply (@card_pubkey_to_ident_shape Fixture.compat Fixture_laws Fixture.card_key).
  reflexivity.
Defined.

(** ** The path codec: round trip *)

Section Decimal.

Lemma code_digit_char (d : Z) : 0 <= d < 10 -> code (digit_char d) = 48 + d.
Proof.
  intros H. unfold code, digit_char.
  rewrite N_ascii_embedding by lia. lia.
Qed.

Lemma digit_val_decimal (c : ascii) :
  is_decimal c -> digit_val 10 c = Some (code c - 48).
Proof.
  unfold is_decimal, digit_val. intros H.
  replace ((48 <=? code c) && (code c <=? 57)) with true
    by (symmetry; apply andb_true_iff; rewrite !Z.leb_le; lia).
  replace (code c - 48 <? 10) with true by (symmetry; apply Z.ltb_lt; lia).
  reflexivity.
Qed.

Lemma digit_char_decimal (d : Z) : 0 <= d < 10 -> is_decimal (digit_char d).
Proof.
  intros H. unfold is_decimal. rewrite code_digit_char by exact H. lia.
Qed.

(** The digits written for [n] read back as [n]. *)
Lemma parse_digits_aux (fuel : nat) :
  forall n acc, 0 <= n < 2 ^ Z.of_nat fuel ->
  parse_digits 10 (digits_aux fuel n acc) 0 = parse_digits 10 acc n.
Proof.
  induction fuel as [|f IH]; intros n acc Hn.
  - cbn [digits_aux]. change (2 ^ Z.of_nat 0) with 1 in Hn.
    now replace n with 0 by lia.
  - cbn [digits_aux].
    assert (Hd : 0 <= n mod 10 < 10) by (apply Z.mod_pos_bound; lia).
    assert (Hdv : digit_val 10 (digit_char (n mod 10)) = Some (n mod 10)).
    { rewrite digit_val_decimal by now apply digit_char_decimal.
      rewrite code_digit_char by exact Hd. f_equal. lia. }
    pose proof (Z.div_mod n 10 ltac:(lia)) as Hdm.
    destruct (n / 10 =? 0) eqn:E.
    + apply Z.eqb_eq in E. cbn [parse_digits]. rewrite Hdv. f_equal. lia.
    + rewrite IH.
      * cbn [parse_digits]. rewrite Hdv. f_equal. lia.
      * rewrite Nat2Z.inj_succ, Z.pow_succ_r in Hn by lia.
        split; [apply Z.div_pos; lia|].
        apply Z.div_lt_upper_bound; lia.
Qed.

(** What is written is a non-empty run of decimal digits. *)
Lemma digits_aux_shape (fuel : nat) :
  forall n acc, 0 <= n ->
  exists ds, digits_aux (S fuel) n acc = ds ++ acc
             /\ Forall is_decimal ds /\ ds <> [].
Proof.
  induction fuel as [|f IH]; intros n acc Hn.
  - assert (Hd : 0 <= n mod 10 < 10) by (apply Z.mod_pos_bound; lia).
    exists [digit_char (n mod 10)]. cbn [digits_aux].
    split; [now destruct (n / 10 =? 0)|].
    split; [|discriminate].
      constructor; [now apply digit_char_decimal | constructor].
  - assert (Hd : 0 <= n mod 10 < 10) by (apply Z.mod_pos_bound; lia).
    cbn [digits_aux]. destruct (n / 10 =? 0) eqn:E.
    + exists [digit_char (n mod 10)]. split; [reflexivity|].
      split; [|discriminate].
      constructor; [now apply digit_char_decimal | constructor].
    + destruct (IH (n / 10) (digit_char (n mod 10) :: acc)) as (ds & Hds & Hall & Hne).
      { apply Z.div_pos; lia. }
      exists (ds ++ [digit_char (n mod 10)]).
      cbn [digits_aux] in Hds. rewrite Hds, <- app_assoc. split; [reflexivity|].
      split.
      * apply Forall_app. split; [exact Hall|].
        constructor; [now apply digit_char_decimal | constructor].
      * destruct ds; discriminate.
Qed.

Lemma toString_decimal (n : Z) :
  0 <= n ->
  Forall is_decimal (toString n) /\ toString n <> []
  /\ parse_digits 10 (toString n) 0 = n.
Proof.
  intros Hn. unfold toString.
  replace (n <? 0) with false by (symmetry; apply Z.ltb_ge; lia).
  destruct (digits_aux_shape (Z.to_nat (Z.log2 n)) n [] Hn) as (ds & Hds & Hall & Hne).
  rewrite Hds, app_nil_r. split; [exact Hall|]. split; [exact Hne|].
  rewrite <- (app_nil_r ds), <- Hds. rewrite parse_digits_aux; [reflexivity|].
  split; [exact Hn|].
  rewrite Nat2Z.inj_succ, Z2Nat.id by apply Z.log2_nonneg.
  destruct (Z.eq_dec n 0) as [->|Hnz]; [reflexivity|].
  apply Z.log2_spec. lia.
Qed.

(** [Number.parseInt] on a non-empty run of decimal digits. *)
Lemma parseInt_decimal (s : jsstring) :
  Forall is_decimal s -> s <> [] -> parseInt s = Num (parse_digits 10 s 0).
Proof.
  intros Hall Hne. destruct s as [|c s]; [congruence|].
  inversion Hall as [|? ? Hc Hs]; subst.
  assert (Hsp : is_space c = false).
  { unfold is_space, is_decimal in *.
    apply orb_false_iff. split; [|apply Z.eqb_neq; lia].
    apply orb_false_iff. split.
    - apply Z.eqb_neq. lia.
    - apply andb_false_iff. right. apply Z.leb_gt. lia. }
  unfold parseInt. cbn [skip_spaces]. rewrite Hsp.
  unfold is_decimal in Hc.
  replace (code c =? 45) with false by (symmetry; apply Z.eqb_neq; lia).
  replace (code c =? 43) with false by (symmetry; apply Z.eqb_neq; lia).
  assert (Hfin : (if starts_with_digit 10 (c :: s)
                  then Num (1 * parse_digits 10 (c :: s) 0) else NaN)
                 = Num (parse_digits 10 (c :: s) 0)).
  { cbn [starts_with_digit]. rewrite (digit_val_decimal c) by exact Hc.
    now rewrite Z.mul_1_l. }
  destruct s as [|cx r]; [exact Hfin|].
  inversion Hs as [|? ? Hcx _]; subst. unfold is_decimal in Hcx.
  replace (code cx =? 120) with false by (symmetry; apply Z.eqb_neq; lia).
  replace (code cx =? 88) with false by (symmetry; apply Z.eqb_neq; lia).
  rewrite andb_false_r. exact Hfin.
Qed.

End Decimal.

Section HardenedFlag.

Lemma ToInt32_HARDENED : ToInt32 HARDENED = - 2 ^ 31.
Proof. reflexivity. Qed.

Lemma ToInt32_small (z : Z) : 0 <= z < 2 ^ 31 -> ToInt32 (Num z) = z.
Proof.
  intros H. unfold ToInt32. change (2 ^ 31) with 2147483648 in *.
  change (2 ^ 32) with 4294967296.
  rewrite Z.mod_small by lia. lia.
Qed.

Lemma ToInt32_large (z : Z) :
  2 ^ 31 <= z < 2 ^ 32 -> ToInt32 (Num z) = z - 2 ^ 32.
Proof.
  intros H. unfold ToInt32. change (2 ^ 31) with 2147483648 in *.
  change (2 ^ 32) with 4294967296 in *.
  replace (z + 2147483648) with ((z - 2147483648) + 1 * 4294967296) by lia.
  rewrite Z.mod_add, Z.mod_small by lia. lia.
Qed.

(** Bits 31 and above of a 32-bit signed integer: the sign. *)
Lemma land_sign_bit (t : Z) :
  - 2 ^ 31 <= t < 2 ^ 31 ->
  Z.land t (- 2 ^ 31) = if t <? 0 then - 2 ^ 31 else 0.
Proof.
  intros H. change (- 2 ^ 31) with (Z.lnot (Z.ones 31)) at 1.
  change (Z.land t (Z.lnot (Z.ones 31))) with (Z.ldiff t (Z.ones 31)).
  rewrite Z.ldiff_ones_r by lia.
  rewrite Z.shiftr_div_pow2, Z.shiftl_mul_pow2 by lia.
  change (2 ^ 31) with 2147483648 in *.
  destruct (t <? 0) eqn:E.
  - apply Z.ltb_lt in E.
    replace (t / 2147483648) with (-1); [reflexivity|].
    apply Z.div_unique with (r := t + 2147483648); lia.
  - apply Z.ltb_ge in E. rewrite Z.div_small by lia. reflexivity.
Qed.

(** [item & ~HARDENED] is the index of a well-formed item. *)
Lemma band_index (z : Z) :
  0 <= z < 2 ^ 32 -> band (Num z) (bnot HARDENED) = Num (z mod 2 ^ 31).
Proof.
  intros H. unfold band, bnot. rewrite ToInt32_HARDENED.
  change (Z.lnot (- 2 ^ 31)) with (Z.ones 31).
  rewrite (ToInt32_small (Z.ones 31)) by (cbv; split; congruence).
  rewrite Z.land_ones by lia. f_equal.
  destruct (Z.lt_ge_cases z (2 ^ 31)) as [Hs|Hl].
  - now rewrite ToInt32_small by lia.
  - rewrite ToInt32_large by lia.
    change (2 ^ 32) with (2 * 2 ^ 31).
    replace (z - 2 * 2 ^ 31) with (z + (-2) * 2 ^ 31) by lia.
    now rewrite Z.mod_add by lia.
Qed.

(** [item & HARDENED] is truthy exactly for the items with the flag. *)
Lemma band_flag (z : Z) :
  0 <= z < 2 ^ 32 ->
  truthy_num (band (Num z) HARDENED) = (2 ^ 31 <=? z).
Proof.
  intros H. unfold band, truthy_num. rewrite ToInt32_HARDENED.
  destruct (Z.lt_ge_cases z (2 ^ 31)) as [Hs|Hl].
  - rewrite ToInt32_small, land_sign_bit by lia.
    replace (z <? 0) with false by (symmetry; apply Z.ltb_ge; lia).
    symmetry. apply Z.leb_gt. lia.
  - rewrite ToInt32_large, land_sign_bit by lia.
    replace (z - 2 ^ 32 <? 0) with true by (symmetry; apply Z.ltb_lt; lia).
    symmetry. apply Z.leb_le. lia.
Qed.

(** [(num | HARDENED) >>> 0] adds the flag to an index. *)
Lemma ushr0_bor_HARDENED (n : Z) :
  0 <= n < 2 ^ 31 -> ushr0 (bor (Num n) HARDENED) = Num (n + 2 ^ 31).
Proof.
  intros H. unfold bor, ushr0. rewrite ToInt32_HARDENED, (ToInt32_small n) by lia.
  assert (Hland : Z.land n (- 2 ^ 31) = 0).
  { rewrite land_sign_bit by lia.
    now replace (n <? 0) with false by (symmetry; apply Z.ltb_ge; lia). }
  rewrite <- (Z.lxor_lor _ _ Hland), <- (Z.add_nocarry_lxor _ _ Hland).
  f_equal. unfold ToInt32.
  replace (n + - 2 ^ 31 + 2 ^ 31) with n by lia.
  change (2 ^ 31) with 2147483648 in *. change (2 ^ 32) with 4294967296.
  rewrite (Z.mod_small n) by lia.
  replace (n - 2147483648) with (n + 2147483648 + (-1) * 4294967296) by lia.
  rewrite Z.mod_add, Z.mod_small by lia. reflexivity.
Qed.

End HardenedFlag.

Section SplitJoin.

Variable sep : ascii.

Lemma split_no_sep (s : jsstring) : ~ In sep s -> split sep s = [s].
Proof.
  induction s as [|c r IH]; intros Hn; [reflexivity|]. cbn [split].
  assert (E : ascii_eqb c sep = false).
  { apply ascii_eqb_neq. intros ->. apply Hn. now left. }
  rewrite E, IH; [reflexivity|]. intros H. apply Hn. now right.
Qed.

Lemma split_app_sep (s t : jsstring) :
  ~ In sep s -> split sep (s ++ sep :: t) = s :: split sep t.
Proof.
  induction s as [|c r IH]; intros Hn.
  - cbn [app split]. now rewrite ascii_eqb_refl.
  - cbn [app split].
    assert (E : ascii_eqb c sep = false).
    { apply ascii_eqb_neq. intros ->. apply Hn. now left. }
    rewrite E, IH; [reflexivity|]. intros H. apply Hn. now right.
Qed.

(** Splitting undoes joining when no part contains the separator. *)
Lemma split_join (parts : list jsstring) :
  parts <> [] -> Forall (fun p => ~ In sep p) parts ->
  split sep (join sep parts) = parts.
Proof.
  induction parts as [|p rest IH]; intros Hne Hall; [congruence|].
  inversion Hall as [|? ? Hp Hrest]; subst.
  destruct rest as [|q rest].
  - cbn [join]. now apply split_no_sep.
  - change (join sep (p :: q :: rest)) with (p ++ sep :: join sep (q :: rest)).
    rewrite split_app_sep by exact Hp. f_equal.
    apply IH; [discriminate | exact Hrest].
Qed.

End SplitJoin.

Section RoundTrip.

Lemma char_at_last (l : jsstring) (x : ascii) :
  char_at (l ++ [x]) (len (l ++ [x]) - 1) = Some x.
Proof.
  unfold char_at. rewrite len_app. change (len [x]) with 1.
  pose proof (len_nonneg l) as Hl.
  replace (len l + 1 - 1 <? 0) with false by (symmetry; apply Z.ltb_ge; lia).
  replace (Z.to_nat (len l + 1 - 1)) with (length l) by (unfold len; lia).
  rewrite nth_error_app2 by lia. now rewrite Nat.sub_diag.
Qed.

Lemma marker_not_decimal (x : ascii) :
  is_decimal x -> includes (str "'phHP") (Some x) = false.
Proof.
  unfold is_decimal. intros H. cbn [includes str list_ascii_of_string existsb].
  unfold ascii_eqb.
  change (code "'") with 39. change (code "p") with 112.
  change (code "h") with 104. change (code "H") with 72.
  change (code "P") with 80.
  repeat (apply orb_false_iff; split); try reflexivity; apply Z.eqb_neq; lia.
Qed.

Lemma decimal_not_m (ds tail : jsstring) :
  Forall is_decimal ds -> ds <> [] -> str_eqb (ds ++ tail) (str "m") = false.
Proof.
  intros Hall Hne. destruct ds as [|c ds]; [congruence|].
  inversion Hall as [|? ? Hc _]; subst. unfold is_decimal in Hc.
  cbn [app str list_ascii_of_string str_eqb]. unfold ascii_eqb.
  change (code "m") with 109.
  replace (code c =? 109) with false by (symmetry; apply Z.eqb_neq; lia).
  reflexivity.
Qed.

Lemma nonempty_len (ds tail : jsstring) :
  ds <> [] -> 1 + len tail <= len (ds ++ tail).
Proof.
  intros Hne. destruct ds as [|c ds]; [congruence|].
  rewrite len_app, len_cons. pose proof (len_nonneg ds). lia.
Qed.

(** One turn of the loop of [str2path] on the text of a well-formed item. *)
Lemma str2path_loop_component (z : Z) (rest : list jsstring) (rv : list jsnum) :
  0 <= z < 2 ^ 32 ->
  str2path_loop (component_text z :: rest) rv
  = str2path_loop rest (rv ++ [Num z]).
Proof.
  intros Hz. unfold component_text.
  assert (Hn : 0 <= z mod 2 ^ 31 < 2 ^ 31) by (apply Z.mod_pos_bound; lia).
  destruct (toString_decimal (z mod 2 ^ 31) (proj1 Hn)) as (Hall & Hne & Hparse).
  set (ds := toString (z mod 2 ^ 31)) in *.
  pose proof (parseInt_decimal ds Hall Hne) as Hint. rewrite Hparse in Hint.
  destruct (2 ^ 31 <=? z) eqn:Eh.
  - (* hardened: digits followed by the marker *)
    apply Z.leb_le in Eh. change (str "h") with ["h"%char].
    cbn [str2path_loop]. rewrite (decimal_not_m ds ["h"%char] Hall Hne).
    pose proof (nonempty_len ds ["h"%char] Hne) as Hlen.
    change (len ["h"%char]) with 1 in Hlen.
    replace (len (ds ++ ["h"%char]) =? 0) with false
      by (symmetry; apply Z.eqb_neq; lia).
    rewrite char_at_last.
    change (includes (str "'phHP") (Some "h"%char)) with true. cbv iota.
    replace (len (ds ++ ["h"%char]) <? 2) with false
      by (symmetry; apply Z.ltb_ge; lia).
    rewrite slice_drop_last, Hint, path_component_in_range_always.
    cbn [negb]. rewrite ushr0_bor_HARDENED by exact Hn.
    do 3 f_equal. change (2 ^ 32) with 4294967296 in Hz.
    change (2 ^ 31) with 2147483648 in *.
    rewrite (Z.mod_eq z 2147483648) by lia.
    assert (Hq : z / 2147483648 = 1).
    { symmetry. apply Z.div_unique with (r := z - 2147483648); lia. }
    rewrite Hq. f_equal. lia.
  - (* plain: digits only *)
    apply Z.leb_gt in Eh. rewrite app_nil_r.
    cbn [str2path_loop].
    pose proof (decimal_not_m ds [] Hall Hne) as Hm. rewrite app_nil_r in Hm.
    rewrite Hm.
    pose proof (nonempty_len ds [] Hne) as Hlen. rewrite app_nil_r in Hlen.
    change (len (@nil ascii)) with 0 in Hlen.
    replace (len ds =? 0) with false by (symmetry; apply Z.eqb_neq; lia).
    destruct (exists_last Hne) as (l & x & El).
    assert (Hx : is_decimal x).
    { rewrite El in Hall. apply Forall_app in Hall. destruct Hall as (_ & Hx).
      now inversion Hx. }
    assert (Hlast : char_at ds (len ds - 1) = Some x)
      by (rewrite El; apply char_at_last).
    rewrite Hlast, (marker_not_decimal x Hx), Hint, path_component_in_range_always.
    cbn [negb]. now rewrite Z.mod_small by lia.
Qed.

Lemma str2path_loop_components (zs : list Z) :
  forall rv, Forall (fun z => 0 <= z < 2 ^ 32) zs ->
  str2path_loop (map component_text zs) rv = Ok (rv ++ map Num zs).
Proof.
  induction zs as [|z zs IH]; intros rv Hall.
  - cbn. now rewrite app_nil_r.
  - inversion Hall as [|? ? Hz Hzs]; subst. cbn [map].
    rewrite str2path_loop_component by exact Hz.
    rewrite IH by exact Hzs. now rewrite <- app_assoc.
Qed.

(** The text of an item has no slash in it. *)
Lemma component_text_no_slash (z : Z) :
  0 <= z < 2 ^ 32 -> ~ In "/"%char (component_text z).
Proof.
  intros Hz. unfold component_text.
  assert (Hn : 0 <= z mod 2 ^ 31) by (apply Z.mod_pos_bound; lia).
  destruct (toString_decimal (z mod 2 ^ 31) Hn) as (Hall & _ & _).
  intros Hin. apply in_app_or in Hin. destruct Hin as [Hin|Hin].
  - rewrite Forall_forall in Hall. specialize (Hall _ Hin).
    unfold is_decimal in Hall. change (code "/") with 47 in Hall. lia.
  - destruct (2 ^ 31 <=? z); [|destruct Hin].
    destruct Hin as [Hin|[]]. discriminate Hin.
Qed.

Lemma path2str_components (zs : list Z) :
  Forall (fun z => 0 <= z < 2 ^ 32) zs ->
  path2str (map Num zs) = join "/" (str "m" :: map component_text zs).
Proof.
  intros Hall. unfold path2str. do 2 f_equal. rewrite map_map.
  apply map_ext_in. intros z Hin. rewrite Forall_forall in Hall.
  specialize (Hall z Hin).
  rewrite band_index, band_flag by exact Hall. reflexivity.
Qed.

Lemma well_formed_path_items (p : list jsnum) :
  well_formed_path p ->
  exists zs, p = map Num zs /\ Forall (fun z => 0 <= z < 2 ^ 32) zs.
Proof.
  induction 1 as [|item p (z & -> & Hz) _ (zs & -> & Hzs)].
  - now exists [].
  - exists (z :: zs). split; [reflexivity|]. now constructor.
Qed.

End RoundTrip.

(** C8. For every well-formed derivation path [p], that is a list of indices
    below 2^31 each with or without the hardened flag,
    [str2path(path2str(p))] returns [p]. *)
Theorem str2path_path2str (p : list jsnum) :
  well_formed_path p -> str2path (path2str p) = Ok p.
Proof.
  intros Hwf. destruct (well_formed_path_items p Hwf) as (zs & -> & Hzs).
  unfold str2path. rewrite path2str_components by exact Hzs.
  rewrite split_join.
  - cbn [str2path_loop].
    change (str_eqb (str "m") (str "m")) with true. cbv iota.
    now rewrite str2path_loop_components.
  - discriminate.
  - constructor.
    + intros [H|[]]. discriminate H.
    + apply Forall_forall. intros t Ht. apply in_map_iff in Ht.
      destruct Ht as (z & <- & Hz). rewrite Forall_forall in Hzs.
      now apply component_text_no_slash, Hzs.
Qed.

Lemma str2path_path2str_witness :
  let p := [Num 2147483732; Num 0; Num 7] in
  path2str p = str "m/84h/0/7" /\ str2path (path2str p) = Ok p.
Proof.
  cbv zeta. split; [reflexivity|].
  apply (str2path_path2str [Num 2147483732; Num 0; Num 7]).
  repeat constructor; eexists; (split; [reflexivity|]); cbv; split; congruence.
Defined.

(** * Further properties *)

(** ** The path codec on arbitrary items *)

Section PathItems.

Lemma ToInt32_range (n : jsnum) : - 2 ^ 31 <= ToInt32 n < 2 ^ 31.
Proof.
  destruct n as [|z]; [cbv; split; congruence|]. unfold ToInt32.
  change (2 ^ 31) with 2147483648. change (2 ^ 32) with 4294967296.
  pose proof (Z.mod_pos_bound (z + 2147483648) 4294967296 ltac:(lia)). lia.
Qed.

(** The 32 bits of a number, read as an unsigned integer: [n >>> 0]. *)
Lemma ushr0_range (n : jsnum) :
  exists z, ushr0 n = Num z /\ 0 <= z < 2 ^ 32 /\ z = ToInt32 n mod 2 ^ 32.
Proof.
  exists (ToInt32 n mod 2 ^ 32). split; [reflexivity|]. split; [|reflexivity].
  apply Z.mod_pos_bound. reflexivity.
Qed.

Lemma ushr0_integer (z : Z) : ushr0 (Num z) = Num (z mod 2 ^ 32).
Proof.
  unfold ushr0, ToInt32. f_equal.
  change (2 ^ 31) with 2147483648. change (2 ^ 32) with 4294967296.
  rewrite Zminus_mod_idemp_l. f_equal. lia.
Qed.

(** [item & ~HARDENED] and [item & HARDENED] for any item, through its 32
    bits. *)
Lemma band_index_any (n : jsnum) :
  band n (bnot HARDENED) = Num ((ToInt32 n mod 2 ^ 32) mod 2 ^ 31).
Proof.
  unfold band, bnot. rewrite ToInt32_HARDENED.
  change (Z.lnot (- 2 ^ 31)) with (Z.ones 31).
  rewrite (ToInt32_small (Z.ones 31)) by (cbv; split; congruence).
  rewrite Z.land_ones by lia. f_equal.
  pose proof (ToInt32_range n) as Hr.
  change (2 ^ 31) with 2147483648 in *. change (2 ^ 32) with 4294967296.
  destruct (Z.lt_ge_cases (ToInt32 n) 0) as [Hneg|Hpos].
  - replace (ToInt32 n mod 4294967296) with (ToInt32 n + 4294967296).
    + replace (ToInt32 n + 4294967296)
        with (ToInt32 n + 2 * 2147483648) by lia.
      now rewrite Z.mod_add by lia.
    + apply Z.mod_unique with (q := -1); lia.
  - now rewrite (Z.mod_small (ToInt32 n) 4294967296) by lia.
Qed.

Lemma band_flag_any (n : jsnum) :
  truthy_num (band n HARDENED) = (2 ^ 31 <=? ToInt32 n mod 2 ^ 32).
Proof.
  unfold band, truthy_num. rewrite ToInt32_HARDENED.
  pose proof (ToInt32_range n) as Hr. rewrite land_sign_bit by exact Hr.
  change (2 ^ 31) with 2147483648 in *. change (2 ^ 32) with 4294967296.
  destruct (ToInt32 n <? 0) eqn:E.
  - apply Z.ltb_lt in E.
    replace (ToInt32 n mod 4294967296) with (ToInt32 n + 4294967296)
      by (apply Z.mod_unique with (q := -1); lia).
    symmetry. apply Z.leb_le. lia.
  - apply Z.ltb_ge in E. rewrite Z.mod_small by lia.
    symmetry. apply Z.leb_gt. lia.
Qed.

(** Setting the flag: [(num | HARDENED) >>> 0] keeps the low 31 bits of
    [num] and lies in the hardened half. *)
Lemma ushr0_bor_HARDENED_any (num : jsnum) :
  ushr0 (bor num HARDENED)
  = Num ((ToInt32 num mod 2 ^ 32) mod 2 ^ 31 + 2 ^ 31).
Proof.
  pose proof (ToInt32_range num) as Hr.
  set (low := (ToInt32 num mod 2 ^ 32) mod 2 ^ 31).
  assert (Hlow : 0 <= low < 2 ^ 31) by (apply Z.mod_pos_bound; reflexivity).
  assert (Hland : Z.land low (- 2 ^ 31) = 0).
  { rewrite land_sign_bit by lia.
    now replace (low <? 0) with false by (symmetry; apply Z.ltb_ge; lia). }
  assert (Hsplit : Z.lor (ToInt32 num) (- 2 ^ 31) = Z.lor low (- 2 ^ 31)).
  { destruct (Z.lt_ge_cases (ToInt32 num) 0) as [Hneg|Hpos].
    - assert (El : low = ToInt32 num + 2 ^ 31).
      { unfold low. change (2 ^ 31) with 2147483648 in *.
        change (2 ^ 32) with 4294967296.
        replace (ToInt32 num mod 4294967296) with (ToInt32 num + 4294967296)
          by (apply Z.mod_unique with (q := -1); lia).
        symmetry. apply Z.mod_unique with (q := 1); lia. }
      assert (Et : ToInt32 num = Z.lor low (- 2 ^ 31)).
      { rewrite <- (Z.lxor_lor _ _ Hland), <- (Z.add_nocarry_lxor _ _ Hland). lia. }
      rewrite Et at 1. now rewrite <- Z.lor_assoc, Z.lor_diag.
    - f_equal. unfold low. change (2 ^ 31) with 2147483648 in *.
      change (2 ^ 32) with 4294967296.
      rewrite (Z.mod_small (ToInt32 num) 4294967296) by lia.
      now rewrite Z.mod_small by lia. }
  unfold bor. rewrite ToInt32_HARDENED, Hsplit.
  rewrite <- (ToInt32_small low) at 1 by exact Hlow.
  change (Num (Z.lor (ToInt32 (Num low)) (- 2 ^ 31)))
    with (bor (Num low) HARDENED).
  now rewrite ushr0_bor_HARDENED.
Qed.

End PathItems.

Section PathLoop.

Lemma path2str_texts (p : list jsnum) :
  path2str p
  = join "/" (str "m" :: map component_text
                           (map (fun n => ToInt32 n mod 2 ^ 32) p)).
Proof.
  unfold path2str. do 2 f_equal. rewrite map_map.
  apply map_ext. intros n. unfold component_text.
  now rewrite band_index_any, band_flag_any.
Qed.

Lemma str2path_loop_app (l1 l2 : list jsstring) :
  forall rv,
  str2path_loop (l1 ++ l2) rv
  = (let! r := str2path_loop l1 rv in str2path_loop l2 r).
Proof.
  induction l1 as [|item l1 IH]; intros rv; [reflexivity|].
  cbn [app str2path_loop].
  repeat match goal with
         | |- context [if ?c then _ else _] => destruct c
         end; cbn [bind]; try reflexivity; apply IH.
Qed.

Lemma str2path_loop_shift (l : list jsstring) :
  forall rv,
  str2path_loop l rv = (let! p := str2path_loop l [] in Ok (rv ++ p)).
Proof.
  induction l as [|item l IH]; intros rv.
  - cbn. now rewrite app_nil_r.
  - cbn [str2path_loop].
    repeat match goal with
           | |- context [if ?c then _ else _] => destruct c
           end; cbn [bind]; try reflexivity; try apply IH.
    + rewrite IH, (IH ([] ++ _)). destruct (str2path_loop l []); cbn [bind];
        [now rewrite <- app_assoc | reflexivity].
    + rewrite IH, (IH ([] ++ _)). destruct (str2path_loop l []); cbn [bind];
        [now rewrite <- app_assoc | reflexivity].
Qed.

Lemma split_nonempty (sep : ascii) (s : jsstring) : split sep s <> [].
Proof.
  destruct s as [|c r]; cbn [split]; [discriminate|].
  destruct (ascii_eqb c sep); [discriminate|].
  destruct (split sep r); discriminate.
Qed.

Lemma split_app (sep : ascii) (a b : jsstring) :
  split sep (a ++ sep :: b) = split sep a ++ split sep b.
Proof.
  induction a as [|c a IH].
  - cbn [app split]. now rewrite ascii_eqb_refl.
  - cbn [app split]. destruct (ascii_eqb c sep); rewrite IH; [reflexivity|].
    pose proof (split_nonempty sep a) as Hne.
    destruct (split sep a); [congruence|reflexivity].
Qed.

(** Parsing a text made of slash-free parts runs the loop on those parts. *)
Lemma str2path_join (parts : list jsstring) :
  Forall (fun part => ~ In "/"%char part) parts ->
  str2path (join "/" parts) = str2path_loop parts [].
Proof.
  intros Hall. unfold str2path. destruct parts as [|part parts]; [reflexivity|].
  rewrite split_join; [reflexivity | discriminate | exact Hall].
Qed.

Lemma str_eqb_length (a b : jsstring) :
  str_eqb a b = true -> length a = length b.
Proof.
  revert b. induction a as [|x a IH]; intros [|y b] H; try discriminate H.
  - reflexivity.
  - cbn [str_eqb] in H. apply andb_true_iff in H. cbn [length].
    f_equal. now apply IH.
Qed.

(** A component with something in front of a hardening marker: the marker is
    dropped, the rest is read by [parseInt], and the flag is set. Which of the
    markers it is plays no part. *)
Lemma str2path_loop_marked (body : jsstring) (c : ascii)
    (rest : list jsstring) (rv : list jsnum) :
  body <> [] -> includes (str "'phHP") (Some c) = true ->
  str2path_loop ((body ++ [c]) :: rest) rv
  = str2path_loop rest (rv ++ [ushr0 (bor (parseInt body) HARDENED)]).
Proof.
  intros Hne Hc. cbn [str2path_loop].
  pose proof (nonempty_len body [c] Hne) as Hlen.
  change (len [c]) with 1 in Hlen.
  destruct (str_eqb (body ++ [c]) (str "m")) eqn:Em.
  { apply str_eqb_length in Em. unfold len in Hlen. cbn in Em. lia. }
  replace (len (body ++ [c]) =? 0) with false by (symmetry; apply Z.eqb_neq; lia).
  rewrite char_at_last, Hc.
  replace (len (body ++ [c]) <? 2) with false by (symmetry; apply Z.ltb_ge; lia).
  now rewrite slice_drop_last, path_component_in_range_always.
Qed.

End PathLoop.

(** X1. [str2path(path2str(p))] succeeds for every path [p], whatever its
    items, and returns each item read as an unsigned 32-bit integer
    ([item >>> 0]): items outside [0, 2^32) come back reduced modulo 2^32 and
    [NaN] comes back as 0. *)
Theorem str2path_path2str_wraps (p : list jsnum) :
  str2path (path2str p) = Ok (map ushr0 p).
Proof.
  rewrite path2str_texts. set (zs := map (fun n => ToInt32 n mod 2 ^ 32) p).
  assert (Hzs : Forall (fun z => 0 <= z < 2 ^ 32) zs).
  { apply Forall_forall. intros z Hz. apply in_map_iff in Hz.
    destruct Hz as (n & <- & _). apply Z.mod_pos_bound. reflexivity. }
  rewrite str2path_join.
  - cbn [str2path_loop].
    change (str_eqb (str "m") (str "m")) with true. cbv iota.
    rewrite str2path_loop_components by exact Hzs.
    unfold zs. now rewrite map_map.
  - constructor.
    + intros [H|[]]. discriminate H.
    + apply Forall_forall. intros t Ht. apply in_map_iff in Ht.
      destruct Ht as (z & <- & Hz). rewrite Forall_forall in Hzs.
      now apply component_text_no_slash, Hzs.
Qed.

(** X2. The five hardening markers ['], [p], [h], [H] and [P] are
    interchangeable: in a path text made of slash-free components, replacing
    the marker that ends a component by another marker does not change what
    [str2path] returns. *)
Theorem str2path_markers_interchangeable
    (before after : list jsstring) (body : jsstring) (c1 c2 : ascii) :
  Forall (fun part => ~ In "/"%char part) (before ++ body :: after) ->
  body <> [] ->
  includes (str "'phHP") (Some c1) = true ->
  includes (str "'phHP") (Some c2) = true ->
  str2path (join "/" (before ++ (body ++ [c1]) :: after))
  = str2path (join "/" (before ++ (body ++ [c2]) :: after)).
Proof.
  intros Hall Hne H1 H2.
  assert (Hmark : forall c, includes (str "'phHP") (Some c) = true ->
                            c <> "/"%char).
  { intros c Hc ->. discriminate Hc. }
  assert (Hparts : forall c, includes (str "'phHP") (Some c) = true ->
            Forall (fun part => ~ In "/"%char part)
                   (before ++ (body ++ [c]) :: after)).
  { intros c Hc. apply Forall_app in Hall. destruct Hall as (Hb & Ha).
    inversion Ha as [|? ? Hbody Hafter]; subst.
    apply Forall_app. split; [exact Hb|]. constructor; [|exact Hafter].
    intros Hin. apply in_app_or in Hin. destruct Hin as [Hin|[Hin|[]]].
    - contradiction.
    - exact (Hmark c Hc Hin). }
  rewrite !str2path_join by (now apply Hparts).
  rewrite !str2path_loop_app. destruct (str2path_loop before []); cbn [bind];
    [|reflexivity].
  now rewrite !str2path_loop_marked.
Qed.

Lemma str2path_markers_interchangeable_witness :
  str2path (str "m/84'/0") = str2path (str "m/84h/0")
  /\ str2path (str "m/84h/0") = Ok [Num 2147483732; Num 0].
Proof.
  split; [|reflexivity].
  apply (str2path_markers_interchangeable [str "m"] [str "0"] (str "84")
           "'"%char "h"%char).
  - repeat constructor; intros H; cbn in H; intuition discriminate.
  - discriminate.
  - reflexivity.
  - reflexivity.
Defined.

(** X3. [str2path] ignores every component that is empty or is ["m"],
    wherever it stands: doubled, leading and trailing slashes and a
    misplaced ["m"] change nothing. *)
Theorem str2path_ignores_m_and_empty (parts : list jsstring) :
  Forall (fun part => ~ In "/"%char part) parts ->
  str2path (join "/" parts)
  = str2path (join "/" (filter (fun item => negb (str_eqb item (str "m"))
                                            && negb (len item =? 0)) parts)).
Proof.
  intros Hall. rewrite !str2path_join.
  - generalize (@nil jsnum) as rv.
    induction parts as [|item parts IH]; intros rv; [reflexivity|].
    inversion Hall as [|? ? _ Hrest]; subst.
    cbn [filter]. cbn [str2path_loop].
    destruct (str_eqb item (str "m")) eqn:Em; cbn [negb andb];
      [now apply IH|].
    destruct (len item =? 0) eqn:El; cbn [negb]; [now apply IH|].
    cbn [str2path_loop]. rewrite Em, El.
    repeat match goal with
           | |- context [if ?c then _ else _] => destruct c
           end; try reflexivity; now apply IH.
  - apply Forall_forall. intros part Hin. apply filter_In in Hin.
    rewrite Forall_forall in Hall. now apply Hall.
  - exact Hall.
Qed.

Lemma str2path_ignores_m_and_empty_witness :
  str2path (str "/m//7/m/") = str2path (str "7")
  /\ str2path (str "7") = Ok [Num 7].
Proof.
  split; [|reflexivity].
  apply (str2path_ignores_m_and_empty
           [[]; str "m"; []; str "7"; str "m"; []]).
  repeat constructor; intros H; cbn in H; intuition discriminate.
Defined.

Lemma str2path_loop_only_error (l : list jsstring) :
  forall rv e,
  str2path_loop l rv = Throw e ->
  exists c, includes (str "'phHP") (Some c) = true
            /\ In [c] l /\ e = MalformedPathError [c].
Proof.
  induction l as [|item l IH]; intros rv e H; [discriminate H|].
  cbn [str2path_loop] in H.
  assert (Hnext : forall rv', str2path_loop l rv' = Throw e ->
            exists c, includes (str "'phHP") (Some c) = true
                      /\ In [c] (item :: l) /\ e = MalformedPathError [c]).
  { intros rv' H'. destruct (IH rv' e H') as (c & Hc & Hin & He).
    exists c. repeat split; [exact Hc | now right | exact He]. }
  destruct (str_eqb item (str "m")); [now apply (Hnext rv)|].
  destruct (len item =? 0) eqn:El; [now apply (Hnext rv)|].
  rewrite !path_component_in_range_always in H. cbn [negb] in H.
  destruct (includes (str "'phHP") (char_at item (len item - 1))) eqn:Ei;
    [|now apply (Hnext _ H)].
  destruct (len item <? 2) eqn:E2; [|now apply (Hnext _ H)].
  apply Z.eqb_neq in El. apply Z.ltb_lt in E2.
  destruct item as [|c [|c' item]].
  - now rewrite len_nil in El.
  - exists c. injection H as <-. repeat split; [exact Ei | now left].
  - rewrite !len_cons in E2. pose proof (len_nonneg item). lia.
Qed.

(** X4. The only failure of [str2path]: when it throws, the path has a
    component that is a hardening marker alone, and the error is the
    'Malformed bip32 path component' error for that component. No other text
    makes it fail. *)
Theorem str2path_only_error (path : jsstring) (e : exn) :
  str2path path = Throw e ->
  exists c, includes (str "'phHP") (Some c) = true
            /\ In [c] (split "/" path)
            /\ e = MalformedPathError [c].
Proof.
  unfold str2path. apply str2path_loop_only_error.
Qed.

Lemma str2path_only_error_witness :
  str2path (str "m/0/H/1x") = Throw (MalformedPathError (str "H"))
  /\ exists c, includes (str "'phHP") (Some c) = true
               /\ In [c] (split "/" (str "m/0/H/1x"))
               /\ MalformedPathError (str "H") = MalformedPathError [c].
Proof.
  split; [reflexivity|].
  apply (str2path_only_error (str "m/0/H/1x")). reflexivity.
Defined.

(** X5. Paths compose: the text [a/b] parses to the items of [a] followed by
    the items of [b], and fails when either part fails, with the failure of
    [a] first. *)
Theorem str2path_concat (a b : jsstring) :
  str2path (a ++ "/"%char :: b)
  = (let! x := str2path a in let! y := str2path b in Ok (x ++ y)).
Proof.
  unfold str2path. rewrite split_app, str2path_loop_app.
  destruct (str2path_loop (split "/" a) []) as [x|e]; cbn [bind];
    [|reflexivity].
  apply str2path_loop_shift.
Qed.

Section Hardened.

Lemma all_hardened_app (p q : list jsnum) :
  all_hardened (p ++ q) = all_hardened p && all_hardened q.
Proof.
  unfold all_hardened, all. now rewrite map_app, forallb_app.
Qed.

(** An item whose flag was set by [str2path] tests as hardened. *)
Lemma flag_set_is_hardened (num : jsnum) :
  truthy_num (band (ushr0 (bor num HARDENED)) HARDENED) = true.
Proof.
  rewrite ushr0_bor_HARDENED_any, band_flag_any.
  set (low := (ToInt32 num mod 2 ^ 32) mod 2 ^ 31).
  assert (Hlow : 0 <= low < 2 ^ 31) by (apply Z.mod_pos_bound; reflexivity).
  change (2 ^ 31) with 2147483648 in *.
  rewrite ToInt32_large by (change (2 ^ 31) with 2147483648;
                            change (2 ^ 32) with 4294967296; lia).
  change (2 ^ 32) with 4294967296.
  replace (low + 2147483648 - 4294967296)
    with (low + 2147483648 + (-1) * 4294967296) by lia.
  rewrite Z.mod_add, Z.mod_small by lia. apply Z.leb_le. lia.
Qed.

Lemma str2path_loop_all_marked (l : list jsstring) :
  forall rv p,
  Forall (fun item => item = str "m" \/ item = []
            \/ includes (str "'phHP") (char_at item (len item - 1)) = true) l ->
  all_hardened rv = true ->
  str2path_loop l rv = Ok p ->
  all_hardened p = true.
Proof.
  induction l as [|item l IH]; intros rv p Hall Hrv H.
  - injection H as <-. exact Hrv.
  - inversion Hall as [|? ? Hitem Hrest]; subst.
    cbn [str2path_loop] in H.
    destruct (str_eqb item (str "m")) eqn:Em; [now apply (IH rv)|].
    destruct (len item =? 0) eqn:El; [now apply (IH rv)|].
    destruct Hitem as [->|[->|Hmark]]; [discriminate Em | discriminate El |].
    rewrite Hmark, path_component_in_range_always in H. cbn [negb] in H.
    destruct (len item <? 2); [discriminate H|].
    apply (IH _ p Hrest) in H; [exact H|].
    rewrite all_hardened_app, Hrv. unfold all_hardened, all.
    cbn [map forallb]. now rewrite flag_set_is_hardened.
Qed.

End Hardened.

(** X6. When every component of a path text, apart from the skipped ["m"] and
    empty ones, ends with a hardening marker, every item that [str2path]
    returns has the hardened flag: [all_hardened] accepts the result. *)
Theorem str2path_marked_all_hardened (path : jsstring) (p : list jsnum) :
  Forall (fun item => item = str "m" \/ item = []
            \/ includes (str "'phHP") (char_at item (len item - 1)) = true)
         (split "/" path) ->
  str2path path = Ok p ->
  all_hardened p = true.
Proof.
  intros Hall H. now apply (str2path_loop_all_marked _ [] p Hall).
Qed.

Lemma str2path_marked_all_hardened_witness :
  str2path (str "m/84h/0'/xP") = Ok [Num 2147483732; Num 2147483648; Num 2147483648]
  /\ all_hardened [Num 2147483732; Num 2147483648; Num 2147483648] = true.
Proof.
  split; [reflexivity|].
  apply (str2path_marked_all_hardened (str "m/84h/0'/xP")
           [Num 2147483732; Num 2147483648; Num 2147483648]).
  - repeat constructor; first [now left | now right; right].
  - reflexivity.
Defined.

(** X7. On integers, [all_hardened] and [none_hardened] test bit 31 of the
    item reduced modulo 2^32: [all_hardened] holds when every item has
    [item mod 2^32 >= 2^31], [none_hardened] when every item has
    [item mod 2^32 < 2^31]. *)
Theorem hardened_predicates_integers (zs : list Z) :
  all_hardened (map Num zs) = forallb (fun z => 2 ^ 31 <=? z mod 2 ^ 32) zs
  /\ none_hardened (map Num zs) = forallb (fun z => z mod 2 ^ 32 <? 2 ^ 31) zs.
Proof.
  assert (Hflag : forall z, truthy_num (band (Num z) HARDENED)
                            = (2 ^ 31 <=? z mod 2 ^ 32)).
  { intros z. rewrite band_flag_any. f_equal.
    pose proof (ushr0_integer z) as H. unfold ushr0 in H. now injection H. }
  unfold all_hardened, none_hardened, all, any. split.
  - induction zs as [|z zs IH]; [reflexivity|].
    cbn [map forallb]. now rewrite Hflag, IH.
  - induction zs as [|z zs IH]; [reflexivity|].
    cbn [map existsb forallb] in *. rewrite negb_orb, IH, Hflag. f_equal.
    now rewrite Z.leb_antisym, negb_involutive.
Qed.

(** X8. [all_hardened] and [none_hardened] both hold for the empty path and
    for no other path. *)
Theorem hardened_both_only_empty (path : list jsnum) :
  all_hardened path && none_hardened path = true <-> path = [].
Proof.
  split; [|now intros ->].
  destruct path as [|item path]; [reflexivity|].
  unfold all_hardened, none_hardened, all, any. cbn [map forallb existsb].
  destruct (truthy_num (band item HARDENED)); cbn; [|discriminate].
  rewrite andb_false_r. discriminate.
Qed.

(** ** The certificate chain verifier, further *)

Section CertificatesMore.

Context {compat : Compat} {constants : Constants}.

Lemma follow_chain_app (a b : list Buffer) :
  forall pubkey,
  follow_chain (a ++ b) pubkey
  = (let! k := follow_chain a pubkey in follow_chain b k).
Proof.
  induction a as [|s a IH]; intros pubkey; [reflexivity|].
  cbn [app follow_chain].
  destruct (CT_sig_to_pubkey (sha256s pubkey) s); cbn [bind];
    [apply IH | reflexivity].
Qed.

(** Twice the bytes decoded from a hexadecimal text never exceed its length. *)
Lemma hex_decode_aux_length (fuel : nat) :
  forall s, 2 * len (hex_decode_aux fuel s) <= len s.
Proof.
  induction fuel as [|f IH]; intros s.
  - cbn. apply len_nonneg.
  - destruct s as [|a [|b r]]; cbn [hex_decode_aux].
    + reflexivity.
    + unfold len. cbn [length]. lia.
    + specialize (IH r). unfold len in *.
      destruct (digit_val 16 a); [|cbn [length]; lia].
      destruct (digit_val 16 b); cbn [length]; lia.
Qed.

End CertificatesMore.

(** X9. [verify_certs_ll] fails closed: when it returns a key, the chain has
    at least two signatures, the message had the framed length, a sealed-slot
    key (if any) had 33 bytes, the authentication signature verified over the
    message with that slot key appended, every link of the chain gave a key,
    and the key returned is the last one recovered and is
    [FACTORY_ROOT_KEYS[0]]. *)
Theorem verify_certs_ll_sound
    {compat : Compat} {constants : Constants}
    (card_nonce card_pubkey my_nonce : Buffer) (chain : list Buffer)
    (signature : Buffer) (slot_pubkey : option str_or_buf) (key : Buffer) :
  verify_certs_ll card_nonce card_pubkey my_nonce chain signature slot_pubkey
  = Ok key ->
  2 <= len chain
  /\ auth_checks_pass card_nonce card_pubkey my_nonce signature slot_pubkey
  /\ follow_chain chain card_pubkey = Ok key
  /\ exists others, FACTORY_ROOT_KEYS = key :: others.
Proof.
  unfold verify_certs_ll, throw_if, auth_checks_pass.
  destruct (len chain <? 2) eqn:Ec; [discriminate|]. apply Z.ltb_ge in Ec.
  rewrite !len_app. change (len OPENDIME) with 8.
  destruct (negb (8 + (len card_nonce + len my_nonce)
                  =? 8 + CARD_NONCE_SIZE + USER_NONCE_SIZE)) eqn:Em;
    [discriminate|].
  apply negb_false_iff, Z.eqb_eq in Em.
  destruct (slot_bytes slot_pubkey) as [s|] eqn:Es.
  - destruct (negb (len s =? 33)) eqn:E33; [discriminate|].
    apply negb_false_iff, Z.eqb_eq in E33.
    destruct (CT_sig_verify _ _ _) eqn:Ev; [|discriminate]. cbn [negb].
    destruct (follow_chain chain card_pubkey) as [k|e]; [|discriminate].
    cbn [bind]. destruct FACTORY_ROOT_KEYS as [|root0 others]; [discriminate|].
    destruct (Buffer_compare k root0 =? 0) eqn:Ek; [|discriminate].
    apply Z.eqb_eq, Buffer_compare_eq in Ek. subst root0. intros [= ->].
    repeat split; try lia; try reflexivity.
    + now intros s' [= <-].
    + now exists others.
  - destruct (CT_sig_verify _ _ _) eqn:Ev; [|discriminate]. cbn [negb].
    destruct (follow_chain chain card_pubkey) as [k|e]; [|discriminate].
    cbn [bind]. destruct FACTORY_ROOT_KEYS as [|root0 others]; [discriminate|].
    destruct (Buffer_compare k root0 =? 0) eqn:Ek; [|discriminate].
    apply Z.eqb_eq, Buffer_compare_eq in Ek. subst root0. intros [= ->].
    repeat split; try lia; try reflexivity.
    + intros s' H. discriminate H.
    + now exists others.
Qed.

Lemma verify_certs_ll_sound_witness :
  @follow_chain Fixture.compat (Fixture.chain_to Fixture.root0) Fixture.card_key
  = Ok Fixture.root0
  /\ exists others, @FACTORY_ROOT_KEYS Fixture.constants = Fixture.root0 :: others.
Proof.
  apply (@verify_certs_ll_sound Fixture.compat Fixture.constants
           Fixture.card_nonce Fixture.card_key Fixture.my_nonce
           (Fixture.chain_to Fixture.root0) Fixture.good_auth_sig None
           Fixture.root0).
  reflexivity.
Defined.

(** X10. A link from which no key can be recovered aborts the verification:
    with the earlier checks passed, [verify_certs_ll] throws the failure of
    [CT_sig_to_pubkey] at the first such link, whatever follows it in the
    chain. *)
Theorem verify_certs_ll_broken_link
    {compat : Compat} {constants : Constants}
    (card_nonce card_pubkey my_nonce : Buffer) (signature : Buffer)
    (slot_pubkey : option str_or_buf)
    (before after : list Buffer) (link key : Buffer) (e : exn) :
  2 <= len (before ++ link :: after) ->
  auth_checks_pass card_nonce card_pubkey my_nonce signature slot_pubkey ->
  follow_chain before card_pubkey = Ok key ->
  CT_sig_to_pubkey (sha256s key) link = Throw e ->
  verify_certs_ll card_nonce card_pubkey my_nonce (before ++ link :: after)
    signature slot_pubkey
  = Throw e.
Proof.
  intros Hlen (Hmsg & Hslot & Hsig) Hwalk Hlink.
  unfold verify_certs_ll, throw_if.
  replace (len (before ++ link :: after) <? 2) with false
    by (symmetry; apply Z.ltb_ge; lia).
  rewrite !len_app. change (len OPENDIME) with 8.
  replace (8 + (len card_nonce + len my_nonce)
           =? 8 + CARD_NONCE_SIZE + USER_NONCE_SIZE) with true
    by (symmetry; apply Z.eqb_eq; lia).
  cbn [negb].
  assert (Hchain : follow_chain (before ++ link :: after) card_pubkey = Throw e).
  { rewrite follow_chain_app, Hwalk. cbn [bind follow_chain]. now rewrite Hlink. }
  destruct (slot_bytes slot_pubkey) as [s|] eqn:Es.
  - rewrite (Hslot s eq_refl). cbn [Z.eqb Pos.eqb negb].
    rewrite Hsig. cbn [negb]. now rewrite Hchain.
  - rewrite Hsig. cbn [negb]. now rewrite Hchain.
Qed.

Lemma verify_certs_ll_broken_link_witness :
  @verify_certs_ll Fixture.compat Fixture.constants
    Fixture.card_nonce Fixture.card_key Fixture.my_nonce
    ([Fixture.cert Fixture.card_key Fixture.batch_key]
       ++ Fixture.cert Fixture.card_key Fixture.root0
       :: [Fixture.cert Fixture.root0 Fixture.root0])
    Fixture.good_auth_sig None
  = Throw (Error "recovery failed").
Proof.
  apply (@verify_certs_ll_broken_link Fixture.compat Fixture.constants
           Fixture.card_nonce Fixture.card_key Fixture.my_nonce
           Fixture.good_auth_sig None
           [Fixture.cert Fixture.card_key Fixture.batch_key]
           [Fixture.cert Fixture.root0 Fixture.root0]
           (Fixture.cert Fixture.card_key Fixture.root0)
           Fixture.batch_key (Error "recovery failed")).
  - cbv. discriminate.
  - repeat split. intros s H. discriminate H.
  - reflexivity.
  - reflexivity.
Defined.

(** X11. A sealed-slot key given as text is decoded from hexadecimal, two
    characters per byte: a non-empty text of fewer than 66 characters cannot
    give 33 bytes, and [verify_certs_ll] throws 'Invalid slot pubkey length'
    for it, whatever the signature is. *)
Theorem verify_certs_ll_short_slot_text
    {compat : Compat} {constants : Constants}
    (card_nonce card_pubkey my_nonce : Buffer) (chain : list Buffer)
    (signature : Buffer) (slot_text : jsstring) :
  2 <= len chain ->
  len card_nonce + len my_nonce = CARD_NONCE_SIZE + USER_NONCE_SIZE ->
  slot_text <> [] -> len slot_text < 66 ->
  verify_certs_ll card_nonce card_pubkey my_nonce chain signature
    (Some (OfStr slot_text))
  = Throw (Error "Invalid slot pubkey length").
Proof.
  intros Hlen Hmsg Hne Hshort. unfold verify_certs_ll, throw_if.
  replace (len chain <? 2) with false by (symmetry; apply Z.ltb_ge; lia).
  rewrite !len_app. change (len OPENDIME) with 8.
  replace (8 + (len card_nonce + len my_nonce)
           =? 8 + CARD_NONCE_SIZE + USER_NONCE_SIZE) with true
    by (symmetry; apply Z.eqb_eq; lia).
  cbn [negb]. destruct slot_text as [|c t]; [congruence|].
  cbn [slot_bytes].
  pose proof (hex_decode_aux_length (length (c :: t)) (c :: t)) as Hdec.
  fold (Buffer_from_hex (c :: t)) in Hdec.
  replace (len (Buffer_from_hex (c :: t)) =? 33) with false
    by (symmetry; apply Z.eqb_neq; lia).
  reflexivity.
Qed.

Lemma verify_certs_ll_short_slot_text_witness :
  @verify_certs_ll Fixture.compat Fixture.constants
    Fixture.card_nonce Fixture.card_key Fixture.my_nonce
    (Fixture.chain_to Fixture.root0) Fixture.good_auth_sig
    (Some (OfStr (str "02abcdef")))
  = Throw (Error "Invalid slot pubkey length").
Proof.
  apply (@verify_certs_ll_short_slot_text Fixture.compat Fixture.constants
           Fixture.card_nonce Fixture.card_key Fixture.my_nonce
           (Fixture.chain_to Fixture.root0) Fixture.good_auth_sig
           (str "02abcdef")).
  - cbv. discriminate.
  - reflexivity.
  - discriminate.
  - reflexivity.
Defined.

(** X12. [verify_master_pubkey] returns a key exactly when the message
    'OPENDIME' || card_nonce || my_nonce || chain_code has the framed length
    and the signature verifies over its digest with the given key; the key
    returned is then the given key, never another one. *)
Theorem verify_master_pubkey_iff
    {compat : Compat} {constants : Constants}
    (pub sig chain_code my_nonce card_nonce key : Buffer) :
  verify_master_pubkey pub sig chain_code my_nonce card_nonce = Ok key
  <-> key = pub
      /\ len card_nonce + len my_nonce + len chain_code
         = CARD_NONCE_SIZE + USER_NONCE_SIZE + 32
      /\ CT_sig_verify sig
           (sha256s (OPENDIME ++ card_nonce ++ my_nonce ++ chain_code)) pub
         = true.
Proof.
  unfold verify_master_pubkey, throw_if. rewrite !len_app.
  change (len OPENDIME) with 8. split.
  - destruct (negb (_ =? _)) eqn:Em; [discriminate|].
    apply negb_false_iff, Z.eqb_eq in Em.
    destruct (CT_sig_verify _ _ _); [|discriminate].
    intros [= <-]. repeat split. lia.
  - intros (-> & Hlen & Hsig).
    replace (8 + (len card_nonce + (len my_nonce + len chain_code))
             =? 8 + CARD_NONCE_SIZE + USER_NONCE_SIZE + 32) with true
      by (symmetry; apply Z.eqb_eq; lia).
    cbn [negb]. now rewrite Hsig.
Qed.

(** ** Response recovery, further *)

Section RecoveryMore.

Context {compat : Compat} {constants : Constants}.

Lemma recover_address_inv (status : status_resp) (read : read_resp)
    (my_nonce : Buffer) (r : recovered) :
  recover_address status read my_nonce = Ok r ->
  st_is_tapsigner status = false
  /\ r = {| r_pubkey := rd_pubkey read;
            r_addr := render_address (rd_pubkey read) false |}
  /\ trim_test (st_addr status) (render_address (rd_pubkey read) false) = true.
Proof.
  unfold recover_address, throw_if.
  destruct (st_is_tapsigner status); [discriminate|].
  destruct (negb (_ =? _)); [discriminate|].
  destruct (negb (CT_sig_verify _ _ _)); [discriminate|].
  fold (trim_test (st_addr status) (render_address (rd_pubkey read) false)).
  destruct (trim_test _ _); [|discriminate].
  now intros [= <-].
Qed.

Lemma recover_pubkey_inv (status : status_resp) (read : read_resp)
    (my_nonce ses_key key : Buffer) :
  recover_pubkey status read my_nonce ses_key = Ok key ->
  st_is_tapsigner status = true
  /\ len (slice_from (rd_pubkey read) 1) = len ses_key
  /\ key = slice (rd_pubkey read) 0 1
           ++ xor (slice_from (rd_pubkey read) 1) ses_key.
Proof.
  unfold recover_pubkey, xor_bytes, throw_if.
  destruct (st_is_tapsigner status); [|discriminate]. cbn [negb].
  destruct (negb (_ =? _)); [discriminate|].
  destruct (len (slice_from (rd_pubkey read) 1) =? len ses_key) eqn:El;
    [|discriminate].
  apply Z.eqb_eq in El. cbn [negb bind].
  destruct (negb (CT_sig_verify _ _ _)); [discriminate|].
  now intros [= <-].
Qed.

End RecoveryMore.

Lemma slice_first_app {A : Type} (a b : list A) :
  len a <= 1 -> (b <> [] -> len a = 1) -> slice (a ++ b) 0 1 = a.
Proof.
  intros Ha Hb. destruct a as [|x [|y a]].
  - destruct b as [|z b]; [reflexivity|].
    specialize (Hb ltac:(discriminate)). discriminate Hb.
  - unfold slice, clamp. rewrite len_app.
    pose proof (len_nonneg b). change (len [x]) with 1.
    change (0 <? 0) with false. change (1 <? 0) with false. cbv iota.
    replace (Z.min 0 (1 + len b)) with 0 by lia.
    replace (Z.min 1 (1 + len b)) with 1 by lia.
    reflexivity.
  - rewrite !len_cons in Ha. pose proof (len_nonneg a). lia.
Qed.

Lemma slice_from_app {A : Type} (a b : list A) :
  len a <= 1 -> (b <> [] -> len a = 1) -> slice_from (a ++ b) 1 = b.
Proof.
  intros Ha Hb. destruct a as [|x [|y a]].
  - destruct b as [|z b]; [reflexivity|].
    specialize (Hb ltac:(discriminate)). discriminate Hb.
  - unfold slice_from, clamp. rewrite len_app.
    pose proof (len_nonneg b). change (len [x]) with 1.
    change (1 <? 0) with false. cbv iota.
    replace (Z.min 1 (1 + len b)) with 1 by lia. reflexivity.
  - rewrite !len_cons in Ha. pose proof (len_nonneg a). lia.
Qed.

Lemma slice_first_len {A : Type} (s : list A) :
  len (slice s 0 1) <= 1 /\ (slice_from s 1 <> [] -> len (slice s 0 1) = 1).
Proof.
  destruct s as [|x s]; [split; [cbv; discriminate | intros H; now elim H]|].
  unfold slice, slice_from, clamp. rewrite len_cons. pose proof (len_nonneg s).
  change (0 <? 0) with false. change (1 <? 0) with false. cbv iota.
  replace (Z.min 0 (1 + len s)) with 0 by lia.
  replace (Z.min 1 (1 + len s)) with 1 by lia.
  cbn. split; [discriminate | reflexivity].
Qed.

(** X13. The key that [recover_pubkey] returns is the response key with its
    first byte kept and the rest masked with the session key: it has the
    length of the response key, and masking it again with the same session
    key gives the response key back. The session key is one byte shorter than
    the response key, unless both are empty. *)
Theorem recover_pubkey_unmasks
    {compat : Compat} {constants : Constants}
    (status : status_resp) (read : read_resp) (my_nonce ses_key key : Buffer) :
  recover_pubkey status read my_nonce ses_key = Ok key ->
  len key = len (rd_pubkey read)
  /\ slice key 0 1 = slice (rd_pubkey read) 0 1
  /\ xor_bytes (slice_from key 1) ses_key = Ok (slice_from (rd_pubkey read) 1)
  /\ slice (rd_pubkey read) 0 1 ++ slice_from (rd_pubkey read) 1
     = rd_pubkey read.
Proof.
  intros H. destruct (recover_pubkey_inv _ _ _ _ _ H) as (_ & Hl & ->).
  set (pk := rd_pubkey read) in *.
  set (tail := slice_from pk 1) in *.
  assert (Hx : len (xor tail ses_key) = len tail) by now apply xor_length.
  assert (Hjoin : slice pk 0 1 ++ tail = pk).
  { unfold tail. destruct pk as [|x pk]; [reflexivity|].
    unfold slice, slice_from, clamp. rewrite len_cons. pose proof (len_nonneg pk).
    change (0 <? 0) with false. change (1 <? 0) with false. cbv iota.
    replace (Z.min 0 (1 + len pk)) with 0 by lia.
    replace (Z.min 1 (1 + len pk)) with 1 by lia. reflexivity. }
  destruct (slice_first_len pk) as (H1 & H2). fold tail in H2.
  assert (Hne : xor tail ses_key <> [] -> len (slice pk 0 1) = 1).
  { intros Hn. apply H2. intros E. apply Hn. now rewrite E. }
  repeat split.
  - rewrite len_app, Hx, <- len_app. now rewrite Hjoin.
  - now apply slice_first_app.
  - rewrite slice_from_app by assumption.
    rewrite xor_bytes_same_length by congruence.
    now rewrite xor_involutive.
  - exact Hjoin.
Qed.

Lemma recover_pubkey_unmasks_witness :
  @recover_pubkey Fixture.accepting Fixture.constants
    (Fixture.status "1.0.0" true "")
    Fixture.tapsigner_read Fixture.my_nonce Fixture.ses_key
  = Ok Fixture.card_key
  /\ len Fixture.card_key = len (rd_pubkey Fixture.tapsigner_read).
Proof.
  split; [reflexivity|].
  apply (@recover_pubkey_unmasks Fixture.accepting
           Fixture.constants (Fixture.status "1.0.0" true "")
           Fixture.tapsigner_read Fixture.my_nonce Fixture.ses_key
           Fixture.card_key).
  reflexivity.
Defined.

(** X14. One status response never passes both recoveries: whatever the
    read responses, nonces and session key are, [recover_pubkey] throws
    'Card is not a Tapsigner' or [recover_address] throws 'recover_address:
    tapsigner not supported', according to the device type, before any
    other check. *)
Theorem recoveries_exclusive
    {compat : Compat} {constants : Constants}
    (status : status_resp) (read1 read2 : read_resp)
    (nonce1 nonce2 ses_key : Buffer) :
  (st_is_tapsigner status = false
   /\ recover_pubkey status read1 nonce1 ses_key
      = Throw (Error "Card is not a Tapsigner"))
  \/ (st_is_tapsigner status = true
      /\ recover_address status read2 nonce2
         = Throw (Error "recover_address: tapsigner not supported")).
Proof.
  unfold recover_pubkey, recover_address, throw_if.
  destruct (st_is_tapsigner status); [right | left]; now split.
Qed.

(** X15. The slot number enters the signed message as one byte: two status
    responses that differ only in their slot list give the same result when
    their first slots agree modulo 256, a missing first slot counting as 0. *)
Theorem recover_address_slot_byte
    {compat : Compat} {constants : Constants}
    (status : status_resp) (slots : list Z) (read : read_resp)
    (my_nonce : Buffer) :
  nth 0 slots 0 mod 256 = nth 0 (st_slots status) 0 mod 256 ->
  recover_address
    {| st_ver := st_ver status; st_card_nonce := st_card_nonce status;
       st_pubkey := st_pubkey status;
       st_is_tapsigner := st_is_tapsigner status;
       st_slots := slots; st_addr := st_addr status |} read my_nonce
  = recover_address status read my_nonce.
Proof.
  intros H. unfold recover_address. cbn [st_is_tapsigner st_card_nonce
    st_slots st_addr]. now rewrite H.
Qed.

Lemma recover_address_slot_byte_witness :
  let status := Fixture.status "1.0.0" false Fixture.announced_addr in
  @recover_address Fixture.compat Fixture.constants
    {| st_ver := st_ver status; st_card_nonce := st_card_nonce status;
       st_pubkey := st_pubkey status;
       st_is_tapsigner := st_is_tapsigner status;
       st_slots := [256; 3]; st_addr := st_addr status |}
    Fixture.satscard_read Fixture.my_nonce
  = @recover_address Fixture.compat Fixture.constants status
      Fixture.satscard_read Fixture.my_nonce.
Proof.
  cbv zeta.
  apply (@recover_address_slot_byte Fixture.compat Fixture.constants
           (Fixture.status "1.0.0" false Fixture.announced_addr) [256; 3]
           Fixture.satscard_read Fixture.my_nonce).
  reflexivity.
Defined.

(** X16. An expected address with no separator in it is never matched:
    [recover_address] returns no result for a status response whose address
    is non-empty and has no ['_'], whatever the key and the signature are. *)
Theorem recover_address_needs_separator
    {compat : Compat} {constants : Constants}
    (status : status_resp) (read : read_resp) (my_nonce : Buffer)
    (r : recovered) :
  ~ In "_"%char (st_addr status) ->
  st_addr status <> [] ->
  recover_address status read my_nonce <> Ok r.
Proof.
  intros Hsep Hne H.
  destruct (recover_address_inv _ _ _ _ H) as (_ & _ & Ht).
  unfold trim_test in Ht. rewrite !andb_true_iff, !Z.eqb_eq in Ht.
  destruct Ht as ((_ & Hlr) & _).
  now apply Hne, expect_ends_without_separator.
Qed.

Lemma recover_address_needs_separator_witness :
  @recover_address Fixture.accepting Fixture.constants
    (Fixture.status "1.0.0" false "bc1aceeeeeeeeeeeeeeeeeee")
    Fixture.satscard_read Fixture.my_nonce
  <> Ok {| r_pubkey := Fixture.card_key;
           r_addr := str "bc1aceeeeeeeeeeeeeeeeeee" |}.
Proof.
  apply (@recover_address_needs_separator Fixture.accepting Fixture.constants
           (Fixture.status "1.0.0" false "bc1aceeeeeeeeeeeeeeeeeee")
           Fixture.satscard_read Fixture.my_nonce).
  - cbn. intuition discriminate.
  - discriminate.
Defined.

(** X17. [render_address] takes a 32-byte value for a private key: it gives
    the address of [CT_priv_to_pubkey] of it, on main net and on test net,
    provided that public key is not itself 32 bytes long. *)
Theorem render_address_private_key
    {compat : Compat} (privkey : Buffer) (testnet : bool) :
  len privkey = 32 ->
  len (CT_priv_to_pubkey privkey) <> 32 ->
  render_address privkey testnet
  = render_address (CT_priv_to_pubkey privkey) testnet.
Proof.
  intros Hp Hq. unfold render_address. rewrite Hp.
  apply Z.eqb_neq in Hq. rewrite Hq. reflexivity.
Qed.

Lemma render_address_private_key_witness :
  @render_address Fixture.compat (repeat 4 32) false
  = @render_address Fixture.compat Fixture.card_key false.
Proof.
  apply (@render_address_private_key Fixture.compat (repeat 4 32) false).
  - reflexivity.
  - cbv. discriminate.
Defined.

(** X18. The anti-counterfeiting check against a derived key: when
    [recover_address] accepts a response whose key is the one
    [verify_derive_address] derives from a chain code and a master key, the
    address it returns is the derived address, and that address matches the
    two ends of the address the card announced. *)
Theorem recover_address_of_derived_key
    {compat : Compat} {constants : Constants} {derivation : Derivation}
    (status : status_resp) (read : read_resp) (my_nonce : Buffer)
    (chain_code master_pub : Buffer) (r : recovered) :
  let d := verify_derive_address chain_code master_pub false in
  rd_pubkey read = d_pubkey d ->
  recover_address status read my_nonce = Ok r ->
  r_addr r = derived_addr d
  /\ r_pubkey r = d_pubkey d
  /\ trim_window_matches (st_addr status) (derived_addr d).
Proof.
  cbv zeta. intros Hkey H.
  destruct (recover_address_inv _ _ _ _ H) as (_ & -> & Ht).
  apply trim_test_sound in Ht. cbn [r_addr r_pubkey].
  unfold verify_derive_address in *. cbn [derived_addr d_pubkey] in *.
  rewrite Hkey in *. split; [reflexivity|]. split; [reflexivity|]. exact Ht.
Qed.

Lemma recover_address_of_derived_key_witness :
  let d := @verify_derive_address Fixture.compat Fixture.derivation
             (repeat 0 32) Fixture.card_key false in
  d_pubkey d = Fixture.card_key
  /\ derived_addr d = str "bc1aceeeeeeeeeeeeeeeeeee"
  /\ @trim_window_matches Fixture.constants (str Fixture.announced_addr)
       (derived_addr d).
Proof.
  cbv zeta. split; [reflexivity|]. split; [reflexivity|].
  apply (@recover_address_of_derived_key Fixture.compat Fixture.constants
           Fixture.derivation
           (Fixture.status "1.0.0" false Fixture.announced_addr)
           Fixture.satscard_read Fixture.my_nonce
           (repeat 0 32) Fixture.card_key
           {| r_pubkey := Fixture.card_key;
              r_addr := str "bc1aceeeeeeeeeeeeeeeeeee" |}).
  - reflexivity.
  - reflexivity.
Defined.

(** ** The recoverable signature reconstructor, further *)

Section RecoverableSigMore.

Context {compat : Compat}.

Variables (digest sig : Buffer).
Variables (addr : option jsstring) (expect_pubkey : option Buffer).
Variable is_testnet : bool.

(** Candidates that are passed over leave the loop where it was. *)
Lemma recover_loop_skip (pre rest : list Z) :
  Forall (candidate_passed_over digest sig addr expect_pubkey is_testnet) pre ->
  recover_loop digest sig addr expect_pubkey is_testnet (pre ++ rest)
  = recover_loop digest sig addr expect_pubkey is_testnet rest.
Proof.
  induction 1 as [|rec_id pre Hid _ IH]; [reflexivity|].
  cbn [app recover_loop]. unfold candidate_passed_over in Hid.
  destruct (CT_sig_to_pubkey digest ((39 + rec_id) :: sig)) as [pk|e].
  - destruct Hid as [(expected & -> & Hneq) | (c & a & -> & Hends)].
    + assert (Hc : (Buffer_compare expected pk =? 0) = false).
      { apply Z.eqb_neq. now rewrite Buffer_compare_eq. }
      rewrite Hc. cbn [negb]. exact IH.
    + rewrite Hends.
      destruct expect_pubkey as [expected|]; [|exact IH].
      destruct (negb (Buffer_compare expected pk =? 0)); exact IH.
  - apply Z.leb_le in Hid. rewrite Hid. exact IH.
Qed.

Lemma recover_loop_accept (rec_id : Z) (rest : list Z) (pk : Buffer) :
  CT_sig_to_pubkey digest ((39 + rec_id) :: sig) = Ok pk ->
  candidate_accepted addr expect_pubkey is_testnet pk ->
  recover_loop digest sig addr expect_pubkey is_testnet (rec_id :: rest)
  = Ok ((39 + rec_id) :: sig).
Proof.
  intros Hrec (Hexp & Haddr). cbn [recover_loop]. rewrite Hrec.
  assert (Hcheck : match addr with
                   | Some (c :: a) =>
                       if endsWith (render_address pk is_testnet) (c :: a)
                       then Ok ((39 + rec_id) :: sig)
                       else recover_loop digest sig addr expect_pubkey
                              is_testnet rest
                   | _ => Ok ((39 + rec_id) :: sig)
                   end = Ok ((39 + rec_id) :: sig)).
  { destruct addr as [[|c a]|]; try reflexivity.
    now rewrite (Haddr c a eq_refl). }
  destruct expect_pubkey as [expected|]; [|exact Hcheck].
  specialize (Hexp expected eq_refl). subst expected.
  rewrite Buffer_compare_refl. exact Hcheck.
Qed.

Lemma recover_loop_result (ids : list Z) (rec_sig : Buffer) :
  recover_loop digest sig addr expect_pubkey is_testnet ids = Ok rec_sig ->
  exists rec_id,
    In rec_id ids /\ rec_sig = (39 + rec_id) :: sig
    /\ match CT_sig_to_pubkey digest rec_sig with
       | Ok pk => candidate_accepted addr expect_pubkey is_testnet pk
       | Throw _ => rec_id < 2 /\ expect_pubkey = None
                    /\ (forall c a, addr <> Some (c :: a))
       end.
Proof.
  induction ids as [|rec_id ids IH]; intros H; [discriminate H|].
  assert (Hnext : recover_loop digest sig addr expect_pubkey is_testnet ids
                  = Ok rec_sig ->
                  exists rec_id0,
                    In rec_id0 (rec_id :: ids)
                    /\ rec_sig = (39 + rec_id0) :: sig
                    /\ match CT_sig_to_pubkey digest rec_sig with
                       | Ok pk => candidate_accepted addr expect_pubkey
                                    is_testnet pk
                       | Throw _ => rec_id0 < 2 /\ expect_pubkey = None
                                    /\ (forall c a, addr <> Some (c :: a))
                       end).
  { intros H'. destruct (IH H') as (i & Hi & Hs & Hm).
    exists i. split; [now right|]. now split. }
  cbn [recover_loop] in H.
  destruct (CT_sig_to_pubkey digest ((39 + rec_id) :: sig)) as [pk|e] eqn:Erec.
  - assert (Hhere : forall expected_ok :
                      (forall expected, expect_pubkey = Some expected ->
                                        expected = pk),
              match addr with
              | Some (c :: a) =>
                  if endsWith (render_address pk is_testnet) (c :: a)
                  then Ok ((39 + rec_id) :: sig)
                  else recover_loop digest sig addr expect_pubkey is_testnet ids
              | _ => Ok ((39 + rec_id) :: sig)
              end = Ok rec_sig ->
              exists rec_id0,
                In rec_id0 (rec_id :: ids)
                /\ rec_sig = (39 + rec_id0) :: sig
                /\ match CT_sig_to_pubkey digest rec_sig with
                   | Ok pk => candidate_accepted addr expect_pubkey
                                is_testnet pk
                   | Throw _ => rec_id0 < 2 /\ expect_pubkey = None
                                /\ (forall c a, addr <> Some (c :: a))
                   end).
    { intros Hexp Hc.
      destruct addr as [[|c a]|] eqn:Ea.
      - assert (Hs : (39 + rec_id) :: sig = rec_sig) by congruence. subst rec_sig. exists rec_id. split; [now left|].
        split; [reflexivity|]. rewrite Erec. split; [exact Hexp|].
        intros c a Hca. discriminate Hca.
      - destruct (endsWith (render_address pk is_testnet) (c :: a)) eqn:Ee;
          [|now apply Hnext].
        assert (Hs : (39 + rec_id) :: sig = rec_sig) by congruence. subst rec_sig. exists rec_id. split; [now left|].
        split; [reflexivity|]. rewrite Erec. split; [exact Hexp|].
        intros c' a' [= <- <-]. exact Ee.
      - assert (Hs : (39 + rec_id) :: sig = rec_sig) by congruence. subst rec_sig. exists rec_id. split; [now left|].
        split; [reflexivity|]. rewrite Erec. split; [exact Hexp|].
        intros c a Hca. discriminate Hca. }
    destruct expect_pubkey as [expected|] eqn:Ex.
    + destruct (Buffer_compare expected pk =? 0) eqn:Ec; cbn [negb] in H;
        [|now apply Hnext].
      apply Z.eqb_eq, Buffer_compare_eq in Ec. subst expected.
      apply Hhere; [|exact H]. now intros expected [= <-].
    + apply Hhere; [|exact H]. intros expected Hx. discriminate Hx.
  - destruct (2 <=? rec_id) eqn:E2; [now apply Hnext|].
    apply Z.leb_gt in E2.
    destruct expect_pubkey as [expected|]; [discriminate H|].
    destruct addr as [[|c a]|] eqn:Ea; try discriminate H;
      (assert (Hs : (39 + rec_id) :: sig = rec_sig) by congruence);
      subst rec_sig; exists rec_id; (split; [now left|]);
      (split; [reflexivity|]); rewrite Erec; repeat split; try exact E2;
      intros c' a' Hca; discriminate Hca.
Qed.

End RecoverableSigMore.

(** X19. What a result of [make_recoverable_sig] is: the digest had 32 bytes
    and the signature 64, and the result is the signature behind a header
    byte 39, 40, 41 or 42. If a key can be recovered from the result, that
    key equals the expected key (when one was given) and its address ends
    with the expected address (when a non-empty one was given). If none can,
    the header is 39 or 40 and no constraint was given. *)
Theorem make_recoverable_sig_result
    {compat : Compat} (digest sig : Buffer) (addr : option jsstring)
    (expect_pubkey : option Buffer) (is_testnet : bool) (rec_sig : Buffer) :
  make_recoverable_sig digest sig addr expect_pubkey is_testnet = Ok rec_sig ->
  len digest = 32 /\ len sig = 64 /\ len rec_sig = 65
  /\ exists rec_id,
       0 <= rec_id <= 3 /\ rec_sig = (39 + rec_id) :: sig
       /\ match CT_sig_to_pubkey digest rec_sig with
          | Ok pk => candidate_accepted addr expect_pubkey is_testnet pk
          | Throw _ => rec_id < 2 /\ expect_pubkey = None
                       /\ (forall c a, addr <> Some (c :: a))
          end.
Proof.
  unfold make_recoverable_sig, throw_if.
  destruct (len digest =? 32) eqn:Ed; [|discriminate].
  destruct (len sig =? 64) eqn:Es; [|discriminate]. cbn [negb].
  apply Z.eqb_eq in Ed, Es. intros H.
  destruct (recover_loop_result _ _ _ _ _ _ _ H) as (rec_id & Hin & -> & Hm).
  split; [exact Ed|]. split; [exact Es|].
  split; [rewrite len_cons; lia|].
  exists rec_id. split; [|now split].
  cbn in Hin. lia.
Qed.

Lemma make_recoverable_sig_result_witness :
  @make_recoverable_sig Fixture.compat Fixture.digest Fixture.digest_sig
    None (Some Fixture.signer_key) false
  = Ok (39 :: Fixture.digest_sig)
  /\ len (39 :: Fixture.digest_sig) = 65.
Proof.
  split; [reflexivity|].
  apply (@make_recoverable_sig_result Fixture.compat Fixture.digest
           Fixture.digest_sig None (Some Fixture.signer_key) false
           (39 :: Fixture.digest_sig)).
  reflexivity.
Defined.

(** X20. The first candidate that fits is returned: when the candidates
    before [rec_id] are passed over (their key is rejected, or they are 2 or
    3 and give no key) and the key recovered for [rec_id] meets the
    constraints, [make_recoverable_sig] returns the signature with header
    [39 + rec_id]; later candidates are not looked at. *)
Theorem make_recoverable_sig_first_fit
    {compat : Compat} (digest sig : Buffer) (addr : option jsstring)
    (expect_pubkey : option Buffer) (is_testnet : bool)
    (before after : list Z) (rec_id : Z) (pk : Buffer) :
  len digest = 32 -> len sig = 64 ->
  [0; 1; 2; 3] = before ++ rec_id :: after ->
  Forall (candidate_passed_over digest sig addr expect_pubkey is_testnet)
         before ->
  CT_sig_to_pubkey digest ((39 + rec_id) :: sig) = Ok pk ->
  candidate_accepted addr expect_pubkey is_testnet pk ->
  make_recoverable_sig digest sig addr expect_pubkey is_testnet
  = Ok ((39 + rec_id) :: sig).
Proof.
  intros Hd Hs Hids Hpre Hrec Hacc. unfold make_recoverable_sig, throw_if.
  rewrite Hd, Hs. cbn [Z.eqb Pos.eqb negb]. rewrite Hids.
  rewrite recover_loop_skip by exact Hpre.
  now apply recover_loop_accept with (pk := pk).
Qed.

Lemma make_recoverable_sig_first_fit_witness :
  @make_recoverable_sig Fixture.compat Fixture.digest Fixture.digest_sig
    None (Some Fixture.signer_key) false
  = Ok ((39 + 0) :: Fixture.digest_sig).
Proof.
  apply (@make_recoverable_sig_first_fit Fixture.compat Fixture.digest
           Fixture.digest_sig None (Some Fixture.signer_key) false
           [] [1; 2; 3] 0 Fixture.signer_key).
  - reflexivity.
  - reflexivity.
  - reflexivity.
  - constructor.
  - reflexivity.
  - split.
    + now intros expected [= <-].
    + intros c a H. discriminate H.
Defined.

(** ** Session key derivation, further *)

Lemma Buffer_from_string_length (s : jsstring) :
  len s <= len (Buffer_from_string s) <= 2 * len s.
Proof.
  unfold Buffer_from_string.
  induction s as [|c s IH]; [cbv; split; discriminate|].
  cbn [flat_map]. rewrite len_app, len_cons.
  destruct (code c <? 128); unfold len in *; cbn [length]; lia.
Qed.

(** X21. [force_bytes] on a text gives its UTF-8 bytes: every byte is in
    [0, 256), there are at least as many bytes as characters and at most
    twice as many, and for a text of ASCII characters the bytes are the
    character codes, one per character. *)
Theorem force_bytes_text (s : jsstring) :
  Forall (fun b => 0 <= b < 256) (force_bytes (OfStr s))
  /\ len s <= len (force_bytes (OfStr s)) <= 2 * len s
  /\ (Forall (fun c => code c < 128) s ->
      force_bytes (OfStr s) = map code s
      /\ len (force_bytes (OfStr s)) = arg_length (OfStr s)).
Proof.
  cbn [force_bytes arg_length]. split; [|split].
  - unfold Buffer_from_string. induction s as [|c s IH]; [constructor|].
    cbn [flat_map]. apply Forall_app. split; [|exact IH].
    assert (Hc : 0 <= code c < 256).
    { unfold code. pose proof (N_ascii_bounded c). lia. }
    destruct (code c <? 128) eqn:E.
    + repeat constructor; lia.
    + apply Z.ltb_ge in E.
      pose proof (Z.mod_pos_bound (code c) 64 ltac:(lia)).
      assert (code c / 64 < 4) by (apply Z.div_lt_upper_bound; lia).
      assert (0 <= code c / 64) by (apply Z.div_pos; lia).
      repeat constructor; lia.
  - apply Buffer_from_string_length.
  - intros Hascii.
    assert (Hmap : Buffer_from_string s = map code s).
    { unfold Buffer_from_string. induction Hascii as [|c s Hc _ IH];
        [reflexivity|].
      cbn [flat_map map]. apply Z.ltb_lt in Hc. now rewrite Hc, IH. }
    split; [exact Hmap|]. rewrite Hmap. unfold len. now rewrite length_map.
Qed.

Lemma force_bytes_text_witness :
  force_bytes (OfStr (str "123456")) = [49; 50; 51; 52; 53; 54].
Proof.
  apply (force_bytes_text (str "123456")).
  repeat constructor.
Defined.

(** X22. A verification code is measured in characters by the length test
    and masked in bytes. For a code of 6 to 32 characters: when it has at
    most 32 bytes the call succeeds and [xcvc] has as many bytes as the code;
    when it has more than 32 bytes (a text with characters outside ASCII) the
    call throws the 'Length mismatch' error of [xor_bytes], not 'Invalid cvc
    length'. *)
Theorem calc_xcvc_bytes_and_characters
    {compat : Compat} (laws : CompatLaws compat)
    (kp : keypair) (cmd : jsstring) (card_nonce his_pubkey : Buffer)
    (cvc : str_or_buf) :
  6 <= arg_length cvc <= 32 ->
  (len (force_bytes cvc) <= 32 ->
   exists r, calc_xcvc kp cmd card_nonce his_pubkey cvc = Ok r
             /\ sk r = CT_ecdh his_pubkey (priv kp)
             /\ epubkey (ag r) = pub kp
             /\ len (xcvc (ag r)) = len (force_bytes cvc))
  /\ (32 < len (force_bytes cvc) ->
      calc_xcvc kp cmd card_nonce his_pubkey cvc
      = Throw (Error "Length mismatch: Expected same lengths at xor_bytes")).
Proof.
  intros Hchars.
  set (session_key := CT_ecdh his_pubkey (priv kp)).
  set (md := sha256s (card_nonce ++ Buffer_from_string cmd)).
  assert (Hsk : len session_key = 32) by apply CT_ecdh_length.
  assert (Hmd : len md = 32) by apply sha256s_length.
  assert (Hx : len (xor session_key md) = 32)
    by (rewrite xor_length; congruence).
  pose proof (len_nonneg (force_bytes cvc)) as Hnn.
  assert (Hrun : calc_xcvc kp cmd card_nonce his_pubkey cvc
                 = (let! x := xor_bytes (force_bytes cvc)
                                (slice (xor session_key md) 0
                                       (len (force_bytes cvc))) in
                    Ok {| sk := session_key;
                          ag := {| epubkey := pub kp; xcvc := x |} |})).
  { unfold calc_xcvc, throw_if.
    replace ((arg_length cvc <? 6) || (32 <? arg_length cvc)) with false
      by (symmetry; apply orb_false_iff; rewrite !Z.ltb_ge; lia).
    fold session_key. fold md.
    now rewrite (xor_bytes_same_length session_key md) by congruence. }
  rewrite Hrun. split.
  - intros Hle.
    assert (Hml : len (slice (xor session_key md) 0 (len (force_bytes cvc)))
                  = len (force_bytes cvc))
      by (rewrite slice_len; lia).
    rewrite xor_bytes_same_length by congruence. cbn [bind].
    eexists. split; [reflexivity|]. cbn [sk ag epubkey xcvc].
    repeat split. now apply xor_length.
  - intros Hgt.
    assert (Hml : len (slice (xor session_key md) 0 (len (force_bytes cvc)))
                  = 32).
    { unfold slice, clamp. rewrite Hx.
      change (0 <? 0) with false.
      replace (len (force_bytes cvc) <? 0) with false
        by (symmetry; apply Z.ltb_ge; lia).
      cbv iota. replace (Z.min 0 32) with 0 by lia.
      replace (Z.min (len (force_bytes cvc)) 32) with 32 by lia.
      cbn [Z.to_nat skipn]. unfold len in *. rewrite length_firstn. lia. }
    unfold xor_bytes, throw_if. rewrite Hml.
    replace (len (force_bytes cvc) =? 32) with false
      by (symmetry; apply Z.eqb_neq; lia).
    reflexivity.
Qed.

Lemma calc_xcvc_bytes_and_characters_witness :
  let accented := repeat (ascii_of_N 233) 20 in
  arg_length (OfStr accented) = 20
  /\ len (force_bytes (OfStr accented)) = 40
  /\ @calc_xcvc Fixture.compat
       {| priv := repeat 3 32; pub := 2 :: repeat 3 32 |} (str "read")
       Fixture.card_nonce Fixture.card_key (OfStr accented)
     = Throw (Error "Length mismatch: Expected same lengths at xor_bytes").
Proof.
  cbv zeta. split; [reflexivity|]. split; [reflexivity|].
  apply (@calc_xcvc_bytes_and_characters Fixture.compat Fixture_laws
           {| priv := repeat 3 32; pub := 2 :: repeat 3 32 |} (str "read")
           Fixture.card_nonce Fixture.card_key
           (OfStr (repeat (ascii_of_N 233) 20))).
  - cbv. split; discriminate.
  - reflexivity.
Defined.

(** ** Utilities *)

Lemma lxor_byte (x y : Z) :
  0 <= x < 256 -> 0 <= y < 256 -> 0 <= Z.lxor x y < 256.
Proof.
  intros Hx Hy. split; [apply Z.lxor_nonneg; lia|].
  destruct (Z.eq_dec (Z.lxor x y) 0) as [->|Hnz]; [lia|].
  assert (Hpos : 0 < Z.lxor x y).
  { assert (0 <= Z.lxor x y) by (apply Z.lxor_nonneg; lia). lia. }
  change 256 with (2 ^ 8). apply Z.log2_lt_pow2; [exact Hpos|].
  pose proof (Z.log2_lxor x y ltac:(lia) ltac:(lia)) as Hl.
  assert (Hbound : forall v, 0 <= v < 256 -> Z.log2 v < 8).
  { intros v Hv. destruct (Z.eq_dec v 0) as [->|Hv0]; [reflexivity|].
    apply Z.log2_lt_pow2; [lia|]. change (2 ^ 8) with 256. lia. }
  pose proof (Hbound x Hx). pose proof (Hbound y Hy). lia.
Qed.

Lemma xor_comm (a b : Buffer) : xor a b = xor b a.
Proof.
  revert b. induction a as [|x a IH]; intros [|y b]; try reflexivity.
  cbn [xor]. now rewrite Z.lxor_comm, IH.
Qed.

Lemma xor_bytes_range (a b : Buffer) :
  Forall (fun x => 0 <= x < 256) a -> Forall (fun x => 0 <= x < 256) b ->
  Forall (fun x => 0 <= x < 256) (xor a b).
Proof.
  intros Ha. revert b. induction Ha as [|x a Hx _ IH]; intros b Hb;
    [constructor|].
  destruct Hb as [|y b Hy Hb]; [constructor|].
  cbn [xor]. constructor; [now apply lxor_byte | now apply IH].
Qed.

(** X23. [xor_bytes] refuses buffers of different lengths and is otherwise
    an involution: a result has the length of its arguments, does not depend
    on their order, keeps every byte in [0, 256), and combined again with
    either argument gives the other one back. *)
Theorem xor_bytes_involution (a b c : Buffer) :
  (len a <> len b ->
   xor_bytes a b
   = Throw (Error "Length mismatch: Expected same lengths at xor_bytes"))
  /\ (xor_bytes a b = Ok c ->
      len c = len a /\ len a = len b
      /\ xor_bytes b a = Ok c
      /\ xor_bytes c b = Ok a
      /\ xor_bytes c a = Ok b
      /\ (Forall (fun x => 0 <= x < 256) a ->
          Forall (fun x => 0 <= x < 256) b ->
          Forall (fun x => 0 <= x < 256) c)).
Proof.
  split.
  - intros H. unfold xor_bytes, throw_if. apply Z.eqb_neq in H. now rewrite H.
  - unfold xor_bytes at 1. unfold throw_if.
    destruct (len a =? len b) eqn:E; [|discriminate]. apply Z.eqb_eq in E.
    intros [= <-].
    assert (Hl : len (xor a b) = len a) by now apply xor_length.
    repeat split.
    + exact Hl.
    + exact E.
    + rewrite xor_bytes_same_length by congruence. now rewrite xor_comm.
    + rewrite xor_bytes_same_length by congruence. now rewrite xor_involutive.
    + rewrite xor_bytes_same_length by congruence.
      rewrite (xor_comm a b). now rewrite xor_involutive by congruence.
    + apply xor_bytes_range.
Qed.

Lemma xor_bytes_involution_witness :
  xor_bytes [1; 2; 3] [255; 0; 3] = Ok [254; 2; 0]
  /\ xor_bytes [254; 2; 0] [255; 0; 3] = Ok [1; 2; 3].
Proof.
  split; [reflexivity|].
  apply (xor_bytes_involution [1; 2; 3] [255; 0; 3] [254; 2; 0]).
  reflexivity.
Defined.

(** X24. [pick_nonce] looks at no byte value: it returns the first of its
    three draws that is not empty, and [undefined] when all three are empty.
    Later draws are not made once one is returned. *)
Theorem pick_nonce_first_nonempty (draws : nat -> Buffer) :
  pick_nonce draws
  = match draws 0%nat, draws 1%nat, draws 2%nat with
    | _ :: _, _, _ => Some (draws 0%nat)
    | [], _ :: _, _ => Some (draws 1%nat)
    | [], [], _ :: _ => Some (draws 2%nat)
    | [], [], [] => None
    end.
Proof.
  unfold pick_nonce. cbn [pick_nonce_loop].
  destruct (draws 0%nat) as [|b0 r0]; [|reflexivity].
  destruct (draws 1%nat) as [|b1 r1]; [|reflexivity].
  destruct (draws 2%nat) as [|b2 r2]; reflexivity.
Qed.

Section RandomString.

Import Utils.

Lemma generator_loop_spec (picks : nat -> Z) (turns : nat) :
  forall i result,
  (forall k, (i <= k < i + turns)%nat -> 0 <= picks k < 62) ->
  exists tail,
    generator_loop picks turns i result = result ++ tail
    /\ length tail = turns
    /\ Forall (fun c => In c characters) tail.
Proof.
  induction turns as [|turns IH]; intros i result Hp.
  - exists []. cbn. now rewrite app_nil_r.
  - cbn [generator_loop].
    assert (Hi : 0 <= picks i < 62) by (apply Hp; lia).
    assert (Hc : exists c, charAt characters (picks i) = [c]
                           /\ In c characters).
    { unfold charAt, char_at.
      replace (picks i <? 0) with false by (symmetry; apply Z.ltb_ge; lia).
      destruct (nth_error characters (Z.to_nat (picks i))) as [c|] eqn:En.
      - exists c. split; [reflexivity|]. now apply nth_error_In in En.
      - apply nth_error_None in En. change (length characters) with 62%nat in En.
        lia. }
    destruct Hc as (c & -> & Hin).
    destruct (IH (S i) (result ++ [c])) as (tail & -> & Hlen & Hall).
    { intros k Hk. apply Hp. lia. }
    exists (c :: tail). rewrite <- app_assoc. split; [reflexivity|].
    split; [cbn [length]; lia|]. now constructor.
Qed.

End RandomString.

(** X25. [randomStringGenerator(length)] of [utils.js] returns one character
    more than asked: a space, then [length] characters of the 62-letter
    alphabet, for picks within the alphabet as
    [Math.floor(Math.random() * 62)] gives them. *)
Theorem randomStringGenerator_length (picks : nat -> Z) (length : Z) :
  0 <= length ->
  (forall k, 0 <= picks k < 62) ->
  exists tail,
    Utils.randomStringGenerator picks length = " "%char :: tail
    /\ len tail = length
    /\ len (Utils.randomStringGenerator picks length) = length + 1
    /\ Forall (fun c => In c Utils.characters) tail.
Proof.
  intros Hlen Hp. unfold Utils.randomStringGenerator.
  destruct (generator_loop_spec picks (Z.to_nat length) 0 (str " "))
    as (tail & -> & Ht & Hall).
  { intros k _. apply Hp. }
  exists tail. change (str " " ++ tail) with (" "%char :: tail).
  split; [reflexivity|]. split; [unfold len; lia|].
  split; [rewrite len_cons; unfold len; lia | exact Hall].
Qed.

Lemma randomStringGenerator_length_witness :
  let picks := fun k => Z.of_nat (Nat.modulo (7 * k) 62) in
  Utils.randomStringGenerator picks 4 = str " AHOV"
  /\ len (Utils.randomStringGenerator picks 4) = 4 + 1.
Proof.
  cbv zeta. split; [reflexivity|].
  destruct (randomStringGenerator_length
              (fun k => Z.of_nat (Nat.modulo (7 * k) 62)) 4)
    as (tail & _ & _ & Hl & _).
  - discriminate.
  - intros k. pose proof (Nat.mod_upper_bound (7 * k) 62). lia.
  - exact Hl.
Defined.
